(** * ACORota: the monthly front-desk rota generator

    A shallow embedding of [ACOROTA.py] (calendar helpers, the assignment
    loop [generate_rota] and the validator [validate_shifts]) together with
    the properties of the rota that the design document states.

    Conventions of the embedding.
    - A [datetime.date] is a record of its three fields; the arithmetic the
      program performs on dates ([date + timedelta], [date - date],
      [weekday], [strftime], [strptime]) follows the algorithms of Python's
      [datetime] and [calendar] modules.
    - A staff member is a Python dict; the roster is a list of distinct
      dict objects, each owning its own [assigned_dates] set (this is what
      the reset at the start of a run builds).  An object is identified by
      its position in the roster, so the candidate lists of the loop are
      lists of positions and an assignment updates the roster in place.
    - [set] values are finite sets ([gset]); Python integers are [Z].
    - A [str] is a [string], a text of code points below 256.  The
      directives [%d] and [%m] of [strftime] are zero padded; [%Y] is
      handed to the C library's [strftime] (CPython 3.11 on glibc), which
      does not pad the year, so a year before 1000 is written with fewer
      than the four digits that [strptime] asks for.
    - A raised exception is [None].
    - Of the Streamlit script, the widgets are inputs (the target month, the
      texts selected per staff member and for the closures, the button
      pressed) and the rendering and the export are left out; what the
      script computes in between is [streamlit_app]. *)

From Stdlib Require Import ZArith Lia Ascii String.
From stdpp Require Import base decidable option list numbers countable gmap strings sorting.

Open Scope Z_scope.

(** ** Dates (Python's [datetime.date]) *)

Module Calendar.

Record date := mkDate { year : Z; month : Z; day : Z }.

#[global] Instance date_eq_dec : EqDecision date.
Proof. solve_decision. Defined.

#[global] Instance date_countable : Countable date.
Proof.
  apply (inj_countable' (λ d, (year d, month d, day d))
                        (λ t, mkDate t.1.1 t.1.2 t.2)).
  by intros [].
Defined.

#[global] Instance date_inhabited : Inhabited date := populate (mkDate 1 1 1).

Definition MINYEAR : Z := 1.
Definition MAXYEAR : Z := 9999.

(** [_DAYS_IN_MONTH] and [_DAYS_BEFORE_MONTH]; index 0 is the placeholder
    [-1] of the Python tables. *)
Definition DAYS_IN_MONTH : list Z :=
  [-1; 31; 28; 31; 30; 31; 30; 31; 31; 30; 31; 30; 31].
Definition DAYS_BEFORE_MONTH : list Z :=
  [-1; 0; 31; 59; 90; 120; 151; 181; 212; 243; 273; 304; 334].

Definition tbl (t : list Z) (i : Z) : Z := t !!! Z.to_nat i.

Definition is_leap (y : Z) : bool :=
  (y mod 4 =? 0) && (negb (y mod 100 =? 0) || (y mod 400 =? 0)).

Definition days_before_year (y : Z) : Z :=
  let y := y - 1 in y * 365 + y / 4 - y / 100 + y / 400.

Definition days_in_month (y m : Z) : Z :=
  if (m =? 2) && is_leap y then 29 else tbl DAYS_IN_MONTH m.

Definition days_before_month (y m : Z) : Z :=
  tbl DAYS_BEFORE_MONTH m + (if (2 <? m) && is_leap y then 1 else 0).

Definition ymd2ord (y m d : Z) : Z :=
  days_before_year y + days_before_month y m + d.

Definition DI400Y : Z := 146097.
Definition DI100Y : Z := 36524.
Definition DI4Y : Z := 1461.

(** [_ord2ymd]: ordinal (1 is 0001-01-01) to year, month, day.  The last
    lines of the Python function, which turn the day of the year [n] into a
    month and a day, are [ord2md]. *)
Definition ord2md (y : Z) (leapyear : bool) (n : Z) : date :=
  let m := Z.shiftr (n + 50) 5 in
  let preceding :=
    tbl DAYS_BEFORE_MONTH m + (if (2 <? m) && leapyear then 1 else 0) in
  if n <? preceding then
    let m := m - 1 in
    let preceding :=
      preceding
      - (tbl DAYS_IN_MONTH m + (if (m =? 2) && leapyear then 1 else 0)) in
    mkDate y m (n - preceding + 1)
  else mkDate y m (n - preceding + 1).

Definition ord2ymd (n : Z) : date :=
  let n := n - 1 in
  let n400 := n / DI400Y in
  let n := n mod DI400Y in
  let y := n400 * 400 + 1 in
  let n100 := n / DI100Y in
  let n := n mod DI100Y in
  let n4 := n / DI4Y in
  let n := n mod DI4Y in
  let n1 := n / 365 in
  let n := n mod 365 in
  let y := y + n100 * 100 + n4 * 4 + n1 in
  if (n1 =? 4) || (n100 =? 4) then mkDate (y - 1) 12 31
  else
    let leapyear := (n1 =? 3) && (negb (n4 =? 24) || (n100 =? 3)) in
    ord2md y leapyear n.

(** The values a [date] object can hold. *)
Definition valid_date (d : date) : bool :=
  (MINYEAR <=? year d) && (year d <=? MAXYEAR) &&
  (1 <=? month d) && (month d <=? 12) &&
  (1 <=? day d) && (day d <=? days_in_month (year d) (month d)).

(** [datetime.date(y, m, d)]; [ValueError] is [None]. *)
Definition make_date (y m d : Z) : option date :=
  let r := mkDate y m d in if valid_date r then Some r else None.

Definition toordinal (d : date) : Z := ymd2ord (year d) (month d) (day d).

Definition MAXORDINAL : Z := 3652059.

(** [date.fromordinal] *)
Definition fromordinal (n : Z) : option date :=
  if (1 <=? n) && (n <=? MAXORDINAL) then Some (ord2ymd n) else None.

(** [d + datetime.timedelta(days=i)]; [OverflowError] is [None]. *)
Definition add_days (d : date) (i : Z) : option date :=
  fromordinal (toordinal d + i).

(** [(d2 - d1).days] *)
Definition days_between (d2 d1 : date) : Z := toordinal d2 - toordinal d1.

(** [d.weekday()]: Monday is 0. *)
Definition weekday (d : date) : Z := (toordinal d + 6) mod 7.

(** [calendar.isleap], [calendar.weekday] and [calendar.monthrange]. *)
Definition cal_weekday (y m d : Z) : option Z :=
  let y := if (MINYEAR <=? y) && (y <=? MAXYEAR) then y else 2000 + y mod 400 in
  weekday <$> make_date y m d.

Definition monthrange (y m : Z) : option (Z * Z) :=
  if (1 <=? m) && (m <=? 12) then
    day1 ← cal_weekday y m 1;
    Some (day1, tbl DAYS_IN_MONTH m + (if (m =? 2) && is_leap y then 1 else 0))
  else None.

(** Date order, as Python compares dates: by (year, month, day). *)
Definition date_lt (a b : date) : Prop :=
  year a < year b ∨
  (year a = year b ∧ (month a < month b ∨ (month a = month b ∧ day a < day b))).

End Calendar.

Import Calendar.

(** ** Date strings: [strftime] and [strptime] with ['%d/%m/%Y'], ['%A'] *)

Module DateText.

Definition digit (n : Z) : ascii := ascii_of_nat (48 + Z.to_nat n).

(** The value of a character that [\d] matches.  Among the code points
    below 256, which are the characters of a [string] here, the decimal
    digits are ['0'] to ['9'] alone. *)
Definition digit_val (c : ascii) : option Z :=
  let n := Z.of_nat (nat_of_ascii c) in
  if (48 <=? n) && (n <=? 57) then Some (n - 48) else None.

(** [%d] and [%m]: two digits, zero padded. *)
Definition pad2 (n : Z) : string :=
  String (digit (n / 10)) (String (digit (n mod 10)) "").
Definition pad4 (n : Z) : string :=
  String (digit (n / 1000)) (String (digit (n / 100 mod 10)) (pad2 (n mod 100))).

(** [%Y] is left to the C library's [strftime] (CPython 3.11 on glibc),
    which writes the year in decimal without padding: four digits from the
    year 1000 on, fewer before it (['01/01/999'] for the first day of
    999). *)
Definition year_text (y : Z) : string :=
  if y <? 10 then String (digit y) ""
  else if y <? 100 then pad2 y
  else if y <? 1000 then String (digit (y / 100)) (pad2 (y mod 100))
  else pad4 y.

(** [date.strftime('%d/%m/%Y')] *)
Definition strftime_dmy (d : date) : string :=
  pad2 (day d) +:+ "/" +:+ pad2 (month d) +:+ "/" +:+ year_text (year d).

Definition DAY_NAMES : list string :=
  ["Monday"; "Tuesday"; "Wednesday"; "Thursday"; "Friday"; "Saturday"; "Sunday"].

(** [date.strftime('%A')] *)
Definition strftime_A (d : date) : string := DAY_NAMES !!! Z.to_nat (weekday d).

(** The text up to the first ['/'] and, when there is one, the text after it. *)
Fixpoint split_slash (s : string) : string * option string :=
  match s with
  | EmptyString => (EmptyString, None)
  | String c s' =>
      if Ascii.eqb c "/" then (EmptyString, Some s')
      else let '(a, b) := split_slash s' in (String c a, b)
  end.

Definition in_range (lo hi v : Z) : option Z :=
  if (lo <=? v) && (v <=? hi) then Some v else None.

(** The group of [%d]: [3[0-1]|[1-2]\d|0[1-9]|[1-9]| [1-9]]. *)
Definition parse_d (s : string) : option Z :=
  match s with
  | String c1 (String c2 EmptyString) =>
      if Ascii.eqb c1 " " then digit_val c2 ≫= in_range 1 9
      else a ← digit_val c1; b ← digit_val c2; in_range 1 31 (10 * a + b)
  | String c1 EmptyString => digit_val c1 ≫= in_range 1 9
  | _ => None
  end.

(** The group of [%m]: [1[0-2]|0[1-9]|[1-9]]. *)
Definition parse_m (s : string) : option Z :=
  match s with
  | String c1 (String c2 EmptyString) =>
      a ← digit_val c1; b ← digit_val c2; in_range 1 12 (10 * a + b)
  | String c1 EmptyString => digit_val c1 ≫= in_range 1 9
  | _ => None
  end.

(** The group of [%Y]: [\d\d\d\d]. *)
Definition parse_Y (s : string) : option Z :=
  match s with
  | String c1 (String c2 (String c3 (String c4 EmptyString))) =>
      a ← digit_val c1; b ← digit_val c2; c ← digit_val c3; d ← digit_val c4;
      Some (1000 * a + 100 * b + 10 * c + d)
  | _ => None
  end.

(** [datetime.datetime.strptime(s, '%d/%m/%Y').date()]; [ValueError] is
    [None].  No group can hold a ['/'], so the three groups are the texts
    between the slashes, and the whole string has to be consumed. *)
Definition strptime_dmy (s : string) : option date :=
  let '(ds, rest) := split_slash s in
  rest ← rest;
  let '(ms, rest) := split_slash rest in
  ys ← rest;
  d ← parse_d ds; m ← parse_m ms; y ← parse_Y ys;
  make_date y m d.

End DateText.

Import DateText.

(** ** The calendar helpers of the program *)

(** [generate_all_dates]: every date of the month. *)
Definition generate_all_dates (year month : Z) : option (list date) :=
  '(_, num_days) ← monthrange year month;
  mapM (λ d, make_date year month d) (seqZ 1 num_days).

(** [generate_dates]: the Monday-to-Friday dates of the month. *)
Definition generate_dates (year month : Z) : option (list date) :=
  '(_, num_days) ← monthrange year month;
  start_date ← make_date year month 1;
  end_date ← make_date year month num_days;
  ds ← mapM (λ i, add_days start_date i)
            (seqZ 0 (days_between end_date start_date + 1));
  Some (filter (λ d, weekday d < 5) ds).

(** ** Staff, schedule entries and the assignment loop *)

Record Staff := mkStaff {
  name : string;
  office_days : list Z;
  holidays : gset date;
  assigned_dates : gset date;
  shift_count : Z
}.

#[global] Instance Staff_inhabited : Inhabited Staff :=
  populate (mkStaff "" [] ∅ ∅ 0).

Record Entry := mkEntry {
  Date : string;
  Day : string;
  Shift : string;
  Notes : string
}.

Definition CLOSED : string := "CLOSED".
Definition UNASSIGNED : string := "UNASSIGNED".

(** [sep.join(l)] *)
Fixpoint join (sep : string) (l : list string) : string :=
  match l with
  | [] => ""
  | [x] => x
  | x :: l' => x +:+ sep +:+ join sep l'
  end.

(** The tie-break among the candidates with the least shift count: from the
    number of draws made so far and the candidates (positions in the roster)
    to the one selected. *)
Definition tie_break := nat → list nat → nat.

(** [random.choice]: the element at a random index below the length; [rng k]
    is the [k]-th number the generator yields. *)
Definition random_choice (rng : nat → nat) : tie_break :=
  λ k candidates, candidates !!! (rng k `mod` length candidates)%nat.

(** The deterministic policy: the first candidate in listed order. *)
Definition first_choice : tie_break := λ _ candidates, candidates !!! 0%nat.

(** The state of the loop: the roster with its per-run fields, the name
    assigned on the previous working day, the rows built so far and the
    number of random draws made. *)
Record Run := mkRun {
  roster : list Staff;
  last_assigned_staff : option string;
  rota_data : list Entry;
  draws : nat
}.

Definition positions (staff : list Staff) : list nat := seq 0 (length staff).

(** [weekday in s['office_days'] and date not in s['holidays']] *)
Definition on_duty (date : date) (s : Staff) : Prop :=
  weekday date ∈ office_days s ∧ date ∉ holidays s.

#[global] Instance on_duty_dec date s : Decision (on_duty date s).
Proof. unfold on_duty. apply _. Defined.

(** The comprehension of lines 62-67. *)
Definition available (staff : list Staff) (date : date) : list nat :=
  filter (λ i, on_duty date (staff !!! i) ∧ date ∉ assigned_dates (staff !!! i))
         (positions staff).

(** The comprehension of lines 76-79. *)
Definition back_to_back (staff : list Staff) (date : date) : list nat :=
  filter (λ i, on_duty date (staff !!! i)) (positions staff).

(** Lines 69-72 and 80-83: drop the previous day's name unless nobody is
    left. *)
Definition avoid_last (staff : list Staff) (last : option string)
    (pool : list nat) : list nat :=
  match last with
  | None => pool
  | Some n =>
      match filter (λ i, name (staff !!! i) ≠ n) pool with
      | [] => pool
      | filtered => filtered
      end
  end.

(** [min(s['shift_count'] for s in pool)], for a pool that is not empty. *)
Definition min_shifts (staff : list Staff) (pool : list nat) : Z :=
  match pool with
  | [] => 0
  | i :: rest =>
      foldl (λ m j, Z.min m (shift_count (staff !!! j)))
            (shift_count (staff !!! i)) rest
  end.

Definition candidates (staff : list Staff) (pool : list nat) : list nat :=
  filter (λ i, shift_count (staff !!! i) = min_shifts staff pool) pool.

(** [selected['assigned_dates'].add(date); selected['shift_count'] += 1] *)
Definition book (date : date) (s : Staff) : Staff :=
  mkStaff (name s) (office_days s) (holidays s)
          ({[date]} ∪ assigned_dates s) (shift_count s + 1).

Definition holiday_names (staff : list Staff) (date : date) : list string :=
  name <$> filter (λ s, date ∈ holidays s) staff.

Definition closure_note (names : list string) : string :=
  match names with
  | [] => "University Closure"
  | _ => "University Closure" +:+ " | On Holiday: " +:+ join ", " names
  end.

(** Lines 105-110. *)
Definition holiday_note (notes : string) (names : list string) : string :=
  match names with
  | [] => notes
  | _ =>
      if decide (notes = "") then "On Holiday: " +:+ join ", " names
      else notes +:+ " | On Holiday: " +:+ join ", " names
  end.

(** The three ways a date is dealt with: a closure day (lines 47-57), a
    shift given to somebody of [pool] (the primary pool of lines 62-72 or,
    when that is empty, the fallback pool of lines 76-83), or nobody to give
    it to (lines 92-94). *)
Inductive branch :=
  | closure_day
  | shift_from (pool : list nat)
  | nobody.

Definition branch_of (closure_days : gset date) (st : Run) (date : date)
    : branch :=
  let staff := roster st in
  if decide (date ∈ closure_days) then closure_day
  else
    match avoid_last staff (last_assigned_staff st) (available staff date) with
    | [] =>
        match avoid_last staff (last_assigned_staff st)
                         (back_to_back staff date) with
        | [] => nobody
        | pool => shift_from pool
        end
    | pool => shift_from pool
    end.

(** Lines 85-87 and 96-98: the one selected from a pool that is not empty. *)
Definition selected (choice : tie_break) (st : Run) (pool : list nat) : nat :=
  choice (draws st) (candidates (roster st) pool).

Definition row (date : date) (shift notes : string) : Entry :=
  mkEntry (strftime_dmy date) (strftime_A date) shift notes.

(** The body of the loop of [generate_rota]. *)
Definition process_date (choice : tie_break) (closure_days : gset date)
    (st : Run) (date : date) : Run :=
  let staff := roster st in
  match branch_of closure_days st date with
  | closure_day =>
      mkRun staff None
            (rota_data st ++
               [row date CLOSED (closure_note (holiday_names staff date))])
            (draws st)
  | shift_from pool =>
      let sel := selected choice st pool in
      let who := name (staff !!! sel) in
      let staff' := alter (book date) sel staff in
      mkRun staff' (Some who)
            (rota_data st ++
               [row date who (holiday_note "" (holiday_names staff' date))])
            (S (draws st))
  | nobody =>
      mkRun staff None
            (rota_data st ++
               [row date UNASSIGNED
                    (holiday_note "" (holiday_names staff date))])
            (draws st)
  end.

Definition start (staff : list Staff) : Run := mkRun staff None [] 0.

Definition rota_loop (choice : tie_break) (closure_days : gset date)
    (st : Run) (dates : list date) : Run :=
  foldl (process_date choice closure_days) st dates.

Definition run_rota (choice : tie_break) (dates : list date)
    (staff : list Staff) (closure_days : gset date) : Run :=
  rota_loop choice closure_days (start staff) dates.

(** [generate_rota]: the rows of the data frame it returns, and the roster
    as the call leaves it. *)
Definition generate_rota (choice : tie_break) (dates : list date)
    (staff : list Staff) (closure_days : gset date) : list Entry :=
  rota_data (run_rota choice dates staff closure_days).

Definition roster_after (choice : tie_break) (dates : list date)
    (staff : list Staff) (closure_days : gset date) : list Staff :=
  roster (run_rota choice dates staff closure_days).

(** The reset of lines 175-177. *)
Definition reset (s : Staff) : Staff :=
  mkStaff (name s) (office_days s) (holidays s) ∅ 0.

Definition is_reset (s : Staff) : Prop :=
  assigned_dates s = ∅ ∧ shift_count s = 0.

(** ** The validator *)

Inductive warning :=
  | InvalidDateFormat (text : string)
  | AssignedOnHoliday (who text : string).

(** The text of a warning, as the two f-strings build it. *)
Definition warning_text (w : warning) : string :=
  match w with
  | InvalidDateFormat t => "Invalid date format in " +:+ t
  | AssignedOnHoliday n t => n +:+ " assigned on holiday: " +:+ t
  end.

Definition validate_row (staff : list Staff) (row : Entry) : list warning :=
  match strptime_dmy (Date row) with
  | None => [InvalidDateFormat (Date row)]
  | Some date =>
      (λ s, AssignedOnHoliday (name s) (Date row)) <$>
        filter (λ s, Shift row = name s ∧ date ∈ holidays s) staff
  end.

Definition validate_shifts (df : list Entry) (staff : list Staff)
    : list warning :=
  df ≫= validate_row staff.

(** The staff list of the program. *)
Definition staff_list : list Staff :=
  [ mkStaff "John" [1; 2; 4] ∅ ∅ 0;
    mkStaff "Jane" [0; 1; 2] ∅ ∅ 0;
    mkStaff "Cheryl" [1; 2; 4] ∅ ∅ 0;
    mkStaff "Claire" [2; 3; 4] ∅ ∅ 0;
    mkStaff "Sarmad" [0; 1; 3] ∅ ∅ 0 ].


(** ** The script around the engine *)

(** Lines 142-143: the options of the holiday and closure selections. *)
Definition all_date_strings (year month : Z) : option (list string) :=
  generate_all_dates year month ≫= λ all_dates : list date,
  Some (strftime_dmy <$> all_dates).

(** Lines 164 and 169: the set of the dates that the selected texts read;
    a text that does not parse raises. *)
Definition parse_selection (selected : list string) : option (gset date) :=
  list_to_set <$> mapM strptime_dmy selected.

Definition set_holidays (s : Staff) (h : gset date) : Staff :=
  mkStaff (name s) (office_days s) h (assigned_dates s) (shift_count s).

(** Lines 160-164: every staff member gets the holidays selected under the
    member's name. *)
Definition with_holidays (selection : string → list string)
    (staff : list Staff) : option (list Staff) :=
  mapM (λ s, set_holidays s <$> parse_selection (selection (name s))) staff.

(** Line 203: the rows of the shift summary. *)
Definition summary (staff : list Staff) : list (string * Z) :=
  (λ s, (name s, shift_count s)) <$> staff.

(** What the program shows when the button is pressed: the rota, the
    warnings and the shift summary. *)
Record Output := mkOutput {
  rota_df : list Entry;
  warnings : list warning;
  shift_summary : list (string * Z)
}.

(** Lines 173-204, without the rendering and the export. *)
Definition generate_button (rng : nat → nat) (year month : Z)
    (staff : list Staff) (closure_days : gset date) : option Output :=
  let staff := reset <$> staff in
  working_dates ← generate_dates year month;
  let run := run_rota (random_choice rng) working_dates staff closure_days in
  Some (mkOutput (rota_data run)
                 (validate_shifts (rota_data run) (roster run))
                 (summary (roster run))).

(** The script from the target month to the output, for the selections the
    user made and the button pressed. *)
Definition streamlit_app (rng : nat → nat) (year month : Z)
    (holiday_selection : string → list string)
    (closure_selected : list string) : option Output :=
  _ ← all_date_strings year month;
  staff ← with_holidays holiday_selection staff_list;
  closure_days ← parse_selection closure_selected;
  generate_button rng year month staff closure_days.

(** ** Notions used to state the properties *)

(** The state of the loop when it reaches the date at position [k]. *)
Definition before (choice : tie_break) (dates : list date)
    (staff : list Staff) (closure_days : gset date) (k : nat) : Run :=
  run_rota choice (take k dates) staff closure_days.

(** The pool the selection starts from, before the previous day's name is
    dropped: the primary pool, or the fallback pool when the primary pool
    is empty. *)
Definition relevant_pool (staff : list Staff) (date : date) : list nat :=
  match available staff date with
  | [] => back_to_back staff date
  | pool => pool
  end.

(** Eligible for a date, in the sense of the primary pool: at a position of
    the roster, on duty that date and not yet assigned that date. *)
Definition eligible (staff : list Staff) (date : date) (j : nat) : Prop :=
  (j < length staff)%nat ∧ on_duty date (staff !!! j) ∧
  date ∉ assigned_dates (staff !!! j).

#[global] Instance eligible_dec staff date j : Decision (eligible staff date j).
Proof. unfold eligible. apply _. Defined.

(** The fields of a staff member that a run does not touch. *)
Definition person (s : Staff) : string * list Z * gset date :=
  (name s, office_days s, holidays s).

(** A tie-break that always takes the first candidate in listed order. *)
Definition picks_first (choice : tie_break) : Prop :=
  ∀ k c cs, choice k (c :: cs) = c.

(** A tie-break that takes one of the candidates, as [random.choice] does. *)
Definition picks_member (choice : tie_break) : Prop :=
  ∀ k cs, cs ≠ [] → choice k cs ∈ cs.

(** The sum of the shift counts of a roster, and the number of rows whose
    shift is neither sentinel. *)
Definition total_shifts (staff : list Staff) : Z :=
  foldr Z.add 0 (shift_count <$> staff).

Definition staffed (e : Entry) : Prop :=
  Shift e ≠ CLOSED ∧ Shift e ≠ UNASSIGNED.

#[global] Instance staffed_dec e : Decision (staffed e).
Proof. unfold staffed. apply _. Defined.

Definition staffed_rows (df : list Entry) : Z :=
  Z.of_nat (length (filter staffed df)).

(** The invariant of the data model on the two per-run fields, and its
    strengthening for the proof: the dates assigned so far are among the
    dates [seen]. *)
Definition counted (s : Staff) : Prop :=
  Z.of_nat (size (assigned_dates s)) = shift_count s.

Definition tallied (seen : gset date) (s : Staff) : Prop :=
  assigned_dates s ⊆ seen ∧ counted s.

(** The dates of a month, by day number. *)
Definition month_days (y m : Z) : list date :=
  mkDate y m <$> seqZ 1 (days_in_month y m).

(** The day of the year, counted from 0, and the length of a month, in
    terms of whether the year is a leap year. *)
Definition yday0 (leap : bool) (m d : Z) : Z :=
  tbl DAYS_BEFORE_MONTH m + (if (2 <? m) && leap then 1 else 0) + d - 1.

Definition mdays (leap : bool) (m : Z) : Z :=
  if (m =? 2) && leap then 29 else tbl DAYS_IN_MONTH m.

(** [ord2md] inverts [yday0] on every day of every month: a finite table. *)
Definition ord2md_table_ok (leap : bool) : bool :=
  forallb (λ m, forallb (λ d,
      let k := yday0 leap m d in
      let r := ord2md 0 leap k in
      (month r =? m) && (day r =? d) && (0 <=? k) &&
      ((k <? 365) || (leap && (m =? 12) && (d =? 31) && (k =? 365))))
    (seqZ 1 (mdays leap m))) (seqZ 1 12).

(** The number of Monday-to-Friday days among [n] consecutive days the first
    of which has weekday [w]. *)
Definition weekdays_among (w n : Z) : Z :=
  Z.of_nat (length (filter (λ k, (w + (k - 1)) mod 7 < 5) (seqZ 1 n))).

(** The position that gets the shift of the date at position [k], if a
    shift is given there. *)
Definition chosen (choice : tie_break) (dates : list date)
    (staff : list Staff) (closure_days : gset date) (k : nat) : option nat :=
  d ← dates !! k;
  match branch_of closure_days (before choice dates staff closure_days k) d with
  | shift_from pool =>
      Some (selected choice (before choice dates staff closure_days k) pool)
  | _ => None
  end.

(** No two shift counts differ by more than one, and the one assigned on
    the previous day, if any, has the greatest count. *)
Definition balanced (st : Run) : Prop :=
  (∀ i j, (i < length (roster st))%nat → (j < length (roster st))%nat →
          shift_count (roster st !!! i) ≤ shift_count (roster st !!! j) + 1) ∧
  (∀ i j, last_assigned_staff st = Some (name (roster st !!! i)) →
          (i < length (roster st))%nat → (j < length (roster st))%nat →
          shift_count (roster st !!! j) ≤ shift_count (roster st !!! i)).

(** ** Sample dates and rosters *)

(** The first week of November 2026; the 2nd is a Monday. *)
Definition monday : date := mkDate 2026 11 2.
Definition tuesday : date := mkDate 2026 11 3.
Definition wednesday : date := mkDate 2026 11 4.
Definition thursday : date := mkDate 2026 11 5.

Definition week : list date := [monday; tuesday; wednesday; thursday].

Definition staff_on_leave : list Staff :=
  [ mkStaff "John" [1; 2; 4] {[tuesday]} ∅ 0;
    mkStaff "Jane" [0; 1; 2] ∅ ∅ 0;
    mkStaff "Sarmad" [0; 1; 3] {[monday]} ∅ 0 ].

Definition staff_two : list Staff :=
  [ mkStaff "Claire" [2; 3] ∅ ∅ 0;
    mkStaff "Sarmad" [0; 1; 3] ∅ ∅ 0 ].

(** Rosters with a member whose name is the text of a sentinel. *)
Definition staff_named_closed : list Staff :=
  [ mkStaff "CLOSED" [0; 1; 2; 3; 4] {[monday]} ∅ 0 ].

Definition staff_closed_on_duty : list Staff :=
  [ mkStaff "CLOSED" [0; 1; 2; 3; 4] ∅ ∅ 0 ].

Definition staff_named_unassigned : list Staff :=
  [ mkStaff "UNASSIGNED" [0; 1; 2; 3; 4] ∅ ∅ 0 ].

(** A roster whose members are in the office every weekday. *)
Definition staff_every_day : list Staff :=
  [ mkStaff "John" [0; 1; 2; 3; 4] ∅ ∅ 0;
    mkStaff "Jane" [0; 1; 2; 3; 4] ∅ ∅ 0;
    mkStaff "Cheryl" [0; 1; 2; 3; 4] ∅ ∅ 0 ].

(** * Proofs *)

(** ** The calendar *)

Ltac zdm := Z.div_mod_to_equations; lia.

Section calendar_facts.

(** A year is [400 a + 100 b + 4 c + e + 1]; the days before it and whether
    it is a leap year read off this decomposition. *)
Lemma days_before_year_split y :
  1 ≤ y →
  ∃ a b c e, y - 1 = 400 * a + 100 * b + 4 * c + e ∧
    0 ≤ a ∧ 0 ≤ b < 4 ∧ 0 ≤ c < 25 ∧ 0 ≤ e < 4 ∧
    days_before_year y = DI400Y * a + DI100Y * b + DI4Y * c + 365 * e ∧
    is_leap y = bool_decide (e = 3 ∧ (c ≠ 24 ∨ b = 3)).
Proof.
  intros Hy.
  exists ((y - 1) / 400), ((y - 1) mod 400 / 100), ((y - 1) mod 100 / 4), ((y - 1) mod 4).
  unfold days_before_year, is_leap, DI400Y, DI100Y, DI4Y.
  repeat split; try zdm.
  case_bool_decide as H.
  - destruct H as [? H]. apply andb_true_iff. split; [apply Z.eqb_eq; zdm|].
    apply orb_true_iff.
    destruct (decide (((y - 1) mod 100) / 4 = 24)) as [Hc|Hc].
    + right. apply Z.eqb_eq. zdm.
    + left. apply negb_true_iff, Z.eqb_neq. zdm.
  - apply andb_false_iff.
    destruct (decide ((y - 1) mod 4 = 3)) as [He|He].
    + right. apply orb_false_iff. split.
      * apply negb_false_iff, Z.eqb_eq. zdm.
      * apply Z.eqb_neq. zdm.
    + left. apply Z.eqb_neq. zdm.
Qed.

(** [ord2ymd] on the [k]-th day (from 0) of the year so decomposed. *)
Lemma ord2ymd_split a b c e k :
  0 ≤ a → 0 ≤ b < 4 → 0 ≤ c < 25 → 0 ≤ e < 4 → 0 ≤ k →
  k < 365 ∨ (k = 365 ∧ e = 3 ∧ (c ≠ 24 ∨ b = 3)) →
  ord2ymd (DI400Y * a + DI100Y * b + DI4Y * c + 365 * e + k + 1) =
    let y := 400 * a + 100 * b + 4 * c + e + 1 in
    if k =? 365 then mkDate y 12 31
    else ord2md y (bool_decide (e = 3 ∧ (c ≠ 24 ∨ b = 3))) k.
Proof.
  intros Ha Hb Hc He Hk Hk'. unfold ord2ymd, DI400Y, DI100Y, DI4Y. cbv zeta.
  set (n0 := 146097 * a + 36524 * b + 1461 * c + 365 * e + k + 1 - 1).
  assert (H400 : n0 / 146097 = a) by (subst n0; zdm).
  assert (R400 : n0 mod 146097 = 36524 * b + 1461 * c + 365 * e + k)
    by (subst n0; zdm).
  rewrite H400, R400. clear H400 R400 n0.
  destruct (Z.eqb_spec k 365) as [->|Hne].
  - (* the last day of a leap year *)
    destruct Hk' as [?|(_ & -> & Hcb)]; [lia|].
    destruct (decide (b = 3 ∧ c = 24)) as [[-> ->]|Hn].
    { change ((36524 * 3 + 1461 * 24 + 365 * 3 + 365) `div` 36524) with 4.
      change ((36524 * 3 + 1461 * 24 + 365 * 3 + 365) `mod` 36524) with 0.
      change (4 =? 4) with true. rewrite orb_true_r. f_equal. zdm. }
    set (n1 := 36524 * b + 1461 * c + 365 * 3 + 365).
    assert (H100 : n1 / 36524 = b) by (subst n1; zdm).
    assert (R100 : n1 mod 36524 = 1461 * c + 1460) by (subst n1; zdm).
    rewrite H100, R100. clear H100 R100 n1.
    assert (H4 : (1461 * c + 1460) / 1461 = c) by zdm.
    assert (R4 : (1461 * c + 1460) mod 1461 = 1460) by zdm.
    rewrite H4, R4. change (1460 / 365) with 4.
    change (4 =? 4) with true. cbn [orb]. f_equal. lia.
  - assert (k < 365) by lia. clear Hk'.
    set (n1 := 36524 * b + 1461 * c + 365 * e + k).
    assert (H100 : n1 / 36524 = b) by (subst n1; zdm).
    assert (R100 : n1 mod 36524 = 1461 * c + 365 * e + k) by (subst n1; zdm).
    rewrite H100, R100. clear H100 R100 n1.
    assert (H4 : (1461 * c + 365 * e + k) / 1461 = c) by zdm.
    assert (R4 : (1461 * c + 365 * e + k) mod 1461 = 365 * e + k) by zdm.
    rewrite H4, R4. clear H4 R4.
    assert (H1 : (365 * e + k) / 365 = e) by zdm.
    assert (R1 : (365 * e + k) mod 365 = k) by zdm.
    rewrite H1, R1. clear H1 R1.
    destruct (Z.eqb_spec e 4); [lia|]. destruct (Z.eqb_spec b 4); [lia|].
    cbn [orb]. f_equal; [lia|].
    symmetry. destruct (Z.eqb_spec e 3), (Z.eqb_spec c 24), (Z.eqb_spec b 3);
      cbn [andb orb negb];
      first [apply bool_decide_eq_true | apply bool_decide_eq_false]; lia.
Qed.

Lemma ord2md_year y leap k :
  ord2md y leap k = mkDate y (month (ord2md 0 leap k)) (day (ord2md 0 leap k)).
Proof. unfold ord2md. cbv zeta. by case_match. Qed.

Lemma ord2md_yday0 y leap m d :
  1 ≤ m ≤ 12 → 1 ≤ d ≤ mdays leap m →
  ord2md y leap (yday0 leap m d) = mkDate y m d ∧
  0 ≤ yday0 leap m d ∧
  (yday0 leap m d < 365 ∨ (yday0 leap m d = 365 ∧ leap = true ∧ m = 12 ∧ d = 31)).
Proof.
  intros Hm Hd.
  assert (Hok : ord2md_table_ok leap = true) by (by destruct leap; vm_compute).
  unfold ord2md_table_ok in Hok. rewrite forallb_forall in Hok.
  specialize (Hok m). rewrite <- list_elem_of_In, elem_of_seqZ in Hok.
  specialize (Hok ltac:(lia)). rewrite forallb_forall in Hok.
  specialize (Hok d). rewrite <- list_elem_of_In, elem_of_seqZ in Hok.
  specialize (Hok ltac:(lia)). cbv zeta in Hok.
  repeat (apply andb_prop in Hok as [Hok ?]).
  rewrite ord2md_year. split; [f_equal; lia|]. split; [lia|].
  destruct (Z.ltb_spec (yday0 leap m d) 365); [by left|right].
  simpl in *. repeat (apply andb_prop in H as [H ?]). repeat split; try lia. done.
Qed.

(** The ordinal of a date converts back to the date. *)
Lemma ord2ymd_ymd2ord y m d :
  1 ≤ y → 1 ≤ m ≤ 12 → 1 ≤ d ≤ days_in_month y m →
  ord2ymd (ymd2ord y m d) = mkDate y m d.
Proof.
  intros Hy Hm Hd.
  destruct (days_before_year_split y Hy) as (a & b & c & e & HY & Ha & Hb & Hc & He & Hdby & Hleap).
  destruct (ord2md_yday0 y (is_leap y) m d Hm Hd) as (Hmd & Hk0 & Hk).
  unfold ymd2ord, days_before_month. rewrite Hdby.
  replace (_ + _ + d) with
    (DI400Y * a + DI100Y * b + DI4Y * c + 365 * e + yday0 (is_leap y) m d + 1)
    by (unfold yday0; lia).
  rewrite ord2ymd_split; try done.
  - cbv zeta. replace (400 * a + 100 * b + 4 * c + e + 1) with y by lia.
    rewrite <- Hleap.
    destruct Hk as [Hlt|(-> & _ & -> & ->)]; [|done].
    destruct (Z.eqb_spec (yday0 (is_leap y) m d) 365); [lia|done].
  - destruct Hk as [?|(? & Hl & _)]; [by left|right].
    rewrite Hleap in Hl. apply bool_decide_eq_true in Hl. done.
Qed.

(** The ordinals of the dates of years 1 to 9999 are those that
    [fromordinal] accepts. *)
Lemma ymd2ord_bounds y m d :
  1 ≤ y ≤ 9999 → 1 ≤ m ≤ 12 → 1 ≤ d ≤ days_in_month y m →
  1 ≤ ymd2ord y m d ≤ MAXORDINAL.
Proof.
  intros Hy Hm Hd.
  destruct (days_before_year_split y ltac:(lia)) as (a & b & c & e & HY & Ha & Hb & Hc & He & Hdby & Hleap).
  destruct (ord2md_yday0 y (is_leap y) m d Hm Hd) as (_ & Hk0 & Hk).
  unfold ymd2ord, days_before_month. rewrite Hdby.
  unfold yday0 in *. unfold DI400Y, DI100Y, DI4Y, MAXORDINAL.
  split; [lia|].
  destruct Hk as [Hk|(Hk & Hl & _)]; [lia|].
  rewrite Hleap in Hl. apply bool_decide_eq_true in Hl. lia.
Qed.

End calendar_facts.

(** ** Date strings *)

Lemma forallb_seqZ (P : Z → bool) lo n x :
  forallb P (seqZ lo n) = true → lo ≤ x < lo + n → P x = true.
Proof.
  intros H Hx. rewrite forallb_forall in H. apply H.
  apply list_elem_of_In, elem_of_seqZ. lia.
Qed.

Lemma valid_date_spec d :
  valid_date d = true ↔
  1 ≤ year d ≤ 9999 ∧ 1 ≤ month d ≤ 12 ∧ 1 ≤ day d ≤ days_in_month (year d) (month d).
Proof.
  unfold valid_date, MINYEAR, MAXYEAR.
  rewrite !andb_true_iff, !Z.leb_le. lia.
Qed.

Lemma days_in_month_le y m : 1 ≤ m ≤ 12 → 28 ≤ days_in_month y m ≤ 31.
Proof.
  intros Hm. unfold days_in_month.
  destruct ((m =? 2) && is_leap y); [lia|].
  pose proof (forallb_seqZ (λ m, (28 <=? tbl DAYS_IN_MONTH m) && (tbl DAYS_IN_MONTH m <=? 31)) 1 12 m eq_refl ltac:(lia)) as H.
  apply andb_prop in H as [?%Z.leb_le ?%Z.leb_le]. lia.
Qed.

Section date_text.

Lemma digit_val_digit a : 0 ≤ a ≤ 9 → digit_val (digit a) = Some a.
Proof.
  intros Ha.
  pose proof (forallb_seqZ (λ a, bool_decide (digit_val (digit a) = Some a)) 0 10 a eq_refl ltac:(lia)) as H.
  by apply bool_decide_eq_true in H.
Qed.

Lemma digit_not_slash a : 0 ≤ a ≤ 9 → Ascii.eqb (digit a) "/" = false.
Proof.
  intros Ha. apply negb_true_iff.
  exact (forallb_seqZ (λ a, negb (Ascii.eqb (digit a) "/")) 0 10 a eq_refl ltac:(lia)).
Qed.

Lemma split_slash_other c s :
  Ascii.eqb c "/" = false →
  split_slash (String c s) = (String c (split_slash s).1, (split_slash s).2).
Proof. intros H. cbn [split_slash]. rewrite H. by destruct (split_slash s). Qed.

Lemma split_slash_pad2 n rest :
  0 ≤ n ≤ 99 → split_slash (pad2 n +:+ "/" +:+ rest) = (pad2 n, Some rest).
Proof.
  intros Hn. unfold pad2.
  change (split_slash (String (digit (n / 10)) (String (digit (n mod 10))
            (String "/" rest))) = (pad2 n, Some rest)).
  rewrite !split_slash_other by (apply digit_not_slash; zdm). done.
Qed.

Lemma parse_d_pad2 n : 1 ≤ n ≤ 31 → parse_d (pad2 n) = Some n.
Proof.
  intros Hn.
  pose proof (forallb_seqZ (λ n, bool_decide (parse_d (pad2 n) = Some n)) 1 31 n eq_refl ltac:(lia)) as H.
  by apply bool_decide_eq_true in H.
Qed.

Lemma parse_m_pad2 n : 1 ≤ n ≤ 12 → parse_m (pad2 n) = Some n.
Proof.
  intros Hn.
  pose proof (forallb_seqZ (λ n, bool_decide (parse_m (pad2 n) = Some n)) 1 12 n eq_refl ltac:(lia)) as H.
  by apply bool_decide_eq_true in H.
Qed.

Lemma parse_Y_pad4 y : 0 ≤ y ≤ 9999 → parse_Y (pad4 y) = Some y.
Proof.
  intros Hy. unfold pad4, pad2, parse_Y.
  rewrite !digit_val_digit by zdm. cbn [mbind option_bind]. f_equal. zdm.
Qed.

(** The text of a year: four digits that read as the year from 1000 on, and
    a text that [%Y] does not match before. *)
Lemma parse_Y_year_text y :
  1 ≤ y ≤ 9999 →
  parse_Y (year_text y) = if 1000 <=? y then Some y else None.
Proof.
  intros Hy. unfold year_text.
  destruct (Z.ltb_spec y 10); [by rewrite (proj2 (Z.leb_gt 1000 y)) by lia|].
  destruct (Z.ltb_spec y 100); [by rewrite (proj2 (Z.leb_gt 1000 y)) by lia|].
  destruct (Z.ltb_spec y 1000); [by rewrite (proj2 (Z.leb_gt 1000 y)) by lia|].
  rewrite (proj2 (Z.leb_le 1000 y)) by lia. apply parse_Y_pad4. lia.
Qed.

(** Parsing a formatted date: the date back from the year 1000 on,
    [ValueError] before. *)
Lemma strptime_strftime_cases d :
  valid_date d = true →
  strptime_dmy (strftime_dmy d) = if 1000 <=? year d then Some d else None.
Proof.
  intros Hv. pose proof Hv as (Hy & Hm & Hd)%valid_date_spec.
  pose proof (days_in_month_le (year d) (month d) Hm).
  unfold strptime_dmy, strftime_dmy.
  rewrite split_slash_pad2 by lia. cbn [mbind option_bind].
  rewrite split_slash_pad2 by lia. cbn [mbind option_bind].
  rewrite parse_d_pad2, parse_m_pad2, parse_Y_year_text by lia.
  cbn [mbind option_bind]. destruct (1000 <=? year d); [|done].
  cbn [mbind option_bind]. unfold make_date. destruct d; simpl in *. by rewrite Hv.
Qed.

Lemma strptime_strftime d :
  valid_date d = true → 1000 ≤ year d → strptime_dmy (strftime_dmy d) = Some d.
Proof.
  intros Hv Hy. rewrite strptime_strftime_cases by done.
  by rewrite (proj2 (Z.leb_le 1000 (year d))).
Qed.

Lemma strptime_strftime_early d :
  valid_date d = true → year d < 1000 → strptime_dmy (strftime_dmy d) = None.
Proof.
  intros Hv Hy. rewrite strptime_strftime_cases by done.
  by rewrite (proj2 (Z.leb_gt 1000 (year d))).
Qed.

Lemma digit_inj a b : 0 ≤ a ≤ 9 → 0 ≤ b ≤ 9 → digit a = digit b → a = b.
Proof.
  intros Ha Hb H. apply (f_equal digit_val) in H.
  rewrite !digit_val_digit in H by done. congruence.
Qed.

Lemma pad2_inj a b : 0 ≤ a ≤ 99 → 0 ≤ b ≤ 99 → pad2 a = pad2 b → a = b.
Proof.
  intros Ha Hb. unfold pad2. intros [= H1 H2].
  apply digit_inj in H1; [|zdm..]. apply digit_inj in H2; [|zdm..]. zdm.
Qed.

Lemma year_text_inj a b :
  1 ≤ a ≤ 9999 → 1 ≤ b ≤ 9999 → year_text a = year_text b → a = b.
Proof.
  intros Ha Hb. unfold year_text, pad4, pad2.
  repeat case_match; try discriminate;
    repeat match goal with H : (_ <? _) = _ |- _ =>
      first [apply Z.ltb_lt in H | apply Z.ltb_ge in H] end;
    intros Heq; simplify_eq;
    repeat match goal with H : digit _ = digit _ |- _ =>
      apply digit_inj in H; [|zdm..] end; zdm.
Qed.

Lemma pad2_slash_inj a b r r' :
  0 ≤ a ≤ 99 → 0 ≤ b ≤ 99 →
  pad2 a +:+ "/" +:+ r = pad2 b +:+ "/" +:+ r' → a = b ∧ r = r'.
Proof.
  intros Ha Hb H.
  assert (split_slash (pad2 a +:+ "/" +:+ r) = split_slash (pad2 b +:+ "/" +:+ r'))
    as Hs by (by rewrite H).
  rewrite (split_slash_pad2 a), (split_slash_pad2 b) in Hs by lia.
  pose proof (f_equal fst Hs) as H1. pose proof (f_equal snd Hs) as H2.
  cbn [fst snd] in H1, H2. split; [by apply pad2_inj|congruence].
Qed.

(** Distinct calendar dates are written differently, in every year. *)
Lemma strftime_inj d1 d2 :
  valid_date d1 = true → valid_date d2 = true →
  strftime_dmy d1 = strftime_dmy d2 → d1 = d2.
Proof.
  intros (Hy1 & Hm1 & Hd1)%valid_date_spec (Hy2 & Hm2 & Hd2)%valid_date_spec.
  pose proof (days_in_month_le (year d1) (month d1) Hm1).
  pose proof (days_in_month_le (year d2) (month d2) Hm2).
  unfold strftime_dmy.
  intros [Hday [Hmonth Hyear%year_text_inj]%pad2_slash_inj]%pad2_slash_inj;
    try lia.
  destruct d1, d2; simpl in *; congruence.
Qed.

(** A formatted calendar date reads as no other date. *)
Lemma strptime_strftime_Some d d' :
  valid_date d = true → strptime_dmy (strftime_dmy d) = Some d' → d' = d.
Proof.
  intros Hv. rewrite strptime_strftime_cases by done.
  destruct (1000 <=? year d); congruence.
Qed.

End date_text.

(** ** The calendar generator *)

Section calendar_generator.

Context (y m : Z) (Hy : 1 ≤ y ≤ 9999) (Hm : 1 ≤ m ≤ 12).

Lemma make_date_valid d :
  1 ≤ d ≤ days_in_month y m → make_date y m d = Some (mkDate y m d).
Proof.
  intros Hd. unfold make_date.
  assert (valid_date (mkDate y m d) = true) as -> by (by apply valid_date_spec).
  done.
Qed.

Lemma monthrange_valid :
  ∃ day1, monthrange y m = Some (day1, days_in_month y m).
Proof.
  pose proof (days_in_month_le y m Hm).
  unfold monthrange, cal_weekday, MINYEAR, MAXYEAR.
  destruct (Z.leb_spec 1 m), (Z.leb_spec m 12); try lia.
  destruct (Z.leb_spec 1 y), (Z.leb_spec y 9999); try lia.
  cbn [andb]. rewrite make_date_valid by lia.
  eexists. cbn [fmap option_fmap option_map mbind option_bind]. do 2 f_equal.
  unfold days_in_month. destruct (Z.eqb_spec m 2) as [->|]; [|cbn [andb]; lia].
  cbn [andb]. by destruct (is_leap y).
Qed.

Lemma add_days_in_month i :
  0 ≤ i < days_in_month y m →
  add_days (mkDate y m 1) i = Some (mkDate y m (1 + i)).
Proof.
  intros Hi. unfold add_days, fromordinal, toordinal. cbn [year month day].
  replace (ymd2ord y m 1 + i) with (ymd2ord y m (1 + i))
    by (unfold ymd2ord; lia).
  pose proof (ymd2ord_bounds y m (1 + i) Hy Hm ltac:(lia)) as [? ?].
  destruct (Z.leb_spec 1 (ymd2ord y m (1 + i))),
           (Z.leb_spec (ymd2ord y m (1 + i)) MAXORDINAL); try lia.
  cbn [andb]. f_equal. apply ord2ymd_ymd2ord; lia.
Qed.

Lemma generate_all_dates_eq : generate_all_dates y m = Some (month_days y m).
Proof.
  unfold generate_all_dates. destruct monthrange_valid as [day1 ->].
  cbn [mbind option_bind]. apply mapM_Some_2, Forall2_fmap_r, Forall_Forall2_diag.
  apply Forall_forall. intros d Hd%elem_of_seqZ. apply make_date_valid. lia.
Qed.

Lemma generate_dates_eq :
  generate_dates y m = Some (filter (λ d, weekday d < 5) (month_days y m)).
Proof.
  pose proof (days_in_month_le y m Hm).
  unfold generate_dates. destruct monthrange_valid as [day1 ->].
  cbn [mbind option_bind]. rewrite !make_date_valid by lia.
  cbn [mbind option_bind].
  replace (days_between _ _ + 1) with (days_in_month y m)
    by (unfold days_between, toordinal, ymd2ord; cbn [year month day]; lia).
  assert (mapM (λ i, add_days (mkDate y m 1) i) (seqZ 0 (days_in_month y m))
          = Some (month_days y m)) as ->; [|done].
  unfold month_days. rewrite <- (fmap_add_seqZ 1 0), <- list_fmap_compose.
  apply mapM_Some_2, Forall2_fmap_r, Forall_Forall2_diag.
  apply Forall_forall. intros i Hi%elem_of_seqZ. apply add_days_in_month. lia.
Qed.

End calendar_generator.

(** ** Candidate pools *)

Section pools.

Context (staff : list Staff).
Implicit Types (pool : list nat) (i j : nat) (d : date).

Lemma elem_of_positions i : i ∈ positions staff ↔ (i < length staff)%nat.
Proof. unfold positions. rewrite elem_of_seq. lia. Qed.

Lemma elem_of_available d i :
  i ∈ available staff d ↔
  (i < length staff)%nat ∧ on_duty d (staff !!! i) ∧
  d ∉ assigned_dates (staff !!! i).
Proof.
  unfold available. rewrite list_elem_of_filter, elem_of_positions. tauto.
Qed.

Lemma elem_of_back_to_back d i :
  i ∈ back_to_back staff d ↔ (i < length staff)%nat ∧ on_duty d (staff !!! i).
Proof.
  unfold back_to_back. rewrite list_elem_of_filter, elem_of_positions. tauto.
Qed.

Lemma elem_of_relevant_pool d i :
  i ∈ relevant_pool staff d → (i < length staff)%nat ∧ on_duty d (staff !!! i).
Proof.
  unfold relevant_pool. destruct (available staff d) eqn:E.
  - apply elem_of_back_to_back.
  - rewrite <- E. intros ?%elem_of_available. tauto.
Qed.

(** Somebody is on duty exactly when the pool to select from is not empty. *)
Lemma relevant_pool_nil d :
  relevant_pool staff d = [] ↔ ¬ ∃ s, s ∈ staff ∧ on_duty d s.
Proof.
  split.
  - intros Hnil (s & (i & Hi & <-)%list_elem_of_lookup_total_1 & Hs).
    assert (i ∈ back_to_back staff d) as Hb by (by apply elem_of_back_to_back).
    unfold relevant_pool in Hnil. destruct (available staff d); [|done].
    rewrite Hnil in Hb. by apply elem_of_nil in Hb.
  - intros Hno. unfold relevant_pool.
    assert (back_to_back staff d = []) as Hb.
    { apply elem_of_nil_inv. intros i (Hi & Hd)%elem_of_back_to_back.
      apply Hno. exists (staff !!! i). split; [|done].
      by apply list_elem_of_lookup_total_2. }
    destruct (available staff d) as [|i l] eqn:E; [done|].
    assert (i ∈ available staff d) as Hi by (rewrite E; left).
    apply elem_of_available in Hi as (? & ? & _).
    assert (i ∈ back_to_back staff d) as Hi' by (by apply elem_of_back_to_back).
    rewrite Hb in Hi'. by apply elem_of_nil in Hi'.
Qed.

(** The two outcomes of lines 69-72: the pool is kept when there is no
    previous name or when everybody in it has that name; otherwise those
    with that name are dropped. *)
Lemma avoid_last_cases last pool :
  (avoid_last staff last pool = pool ∧
   ∀ n i, last = Some n → i ∈ pool → name (staff !!! i) = n) ∨
  (∃ n, last = Some n ∧
        avoid_last staff last pool = filter (λ i, name (staff !!! i) ≠ n) pool ∧
        avoid_last staff last pool ≠ []).
Proof.
  destruct last as [n|]; [|left; by split].
  unfold avoid_last.
  destruct (filter (λ i, name (staff !!! i) ≠ n) pool) as [|i l] eqn:E.
  - left. split; [done|]. intros n' i [= <-] Hi.
    destruct (decide (name (staff !!! i) = n)) as [|Hne]; [done|].
    by destruct (filter_nil_not_elem_of _ _ i E Hne).
  - right. exists n. by rewrite E.
Qed.

Lemma avoid_last_subseteq last pool i :
  i ∈ avoid_last staff last pool → i ∈ pool.
Proof.
  destruct (avoid_last_cases last pool) as [[-> _]|(n & _ & -> & _)]; [done|].
  by intros [_ ?]%list_elem_of_filter.
Qed.

Lemma avoid_last_nil last pool : avoid_last staff last pool = [] ↔ pool = [].
Proof.
  split.
  - by destruct (avoid_last_cases last pool) as [[-> _]|(n & _ & _ & ?)].
  - intros ->. by destruct last.
Qed.

(** [min_shifts] is a lower bound of the shift counts of the pool, and
    somebody in the pool has it. *)
Lemma foldl_min_le (f : nat → Z) l a :
  foldl (λ m j, Z.min m (f j)) a l ≤ a ∧
  ∀ j, j ∈ l → foldl (λ m j, Z.min m (f j)) a l ≤ f j.
Proof.
  revert a. induction l as [|x l IH]; intros a; cbn [foldl].
  - split; [lia|]. by intros j ?%elem_of_nil.
  - destruct (IH (Z.min a (f x))) as [H1 H2]. split; [lia|].
    intros j [->|?]%elem_of_cons; [lia|auto].
Qed.

Lemma foldl_min_attained (f : nat → Z) l a :
  foldl (λ m j, Z.min m (f j)) a l = a ∨
  ∃ j, j ∈ l ∧ foldl (λ m j, Z.min m (f j)) a l = f j.
Proof.
  revert a. induction l as [|x l IH]; intros a; cbn [foldl]; [by left|].
  destruct (IH (Z.min a (f x))) as [->|(j & ? & ->)].
  - destruct (Z.min_spec a (f x)) as [[_ ->]|[_ ->]]; [by left|].
    right. exists x. split; [left|done].
  - right. exists j. split; [by right|done].
Qed.

Lemma min_shifts_le pool i :
  i ∈ pool → min_shifts staff pool ≤ shift_count (staff !!! i).
Proof.
  destruct pool as [|x l]; [by intros ?%elem_of_nil|].
  cbn [min_shifts].
  destruct (foldl_min_le (λ j, shift_count (staff !!! j)) l
              (shift_count (staff !!! x))) as [H1 H2].
  intros [->|?]%elem_of_cons; auto.
Qed.

Lemma min_shifts_attained pool :
  pool ≠ [] → ∃ i, i ∈ pool ∧ shift_count (staff !!! i) = min_shifts staff pool.
Proof.
  destruct pool as [|x l]; [done|]. intros _. cbn [min_shifts].
  destruct (foldl_min_attained (λ j, shift_count (staff !!! j)) l
              (shift_count (staff !!! x))) as [->|(j & ? & ->)].
  - exists x. split; [left|done].
  - exists j. split; [by right|done].
Qed.

(** [random.choice] is never called on an empty list. *)
Lemma candidates_nonempty pool : pool ≠ [] → candidates staff pool ≠ [].
Proof.
  intros (i & Hi & Hmin)%min_shifts_attained Hnil.
  assert (i ∈ candidates staff pool) as Hc
    by (unfold candidates; by apply list_elem_of_filter).
  rewrite Hnil in Hc. by apply elem_of_nil in Hc.
Qed.

Lemma elem_of_candidates pool i :
  i ∈ candidates staff pool ↔
  i ∈ pool ∧ ∀ j, j ∈ pool → shift_count (staff !!! i) ≤ shift_count (staff !!! j).
Proof.
  unfold candidates. rewrite list_elem_of_filter. split.
  - intros [-> ?]. split; [done|]. apply min_shifts_le.
  - intros [Hi Hle]. split; [|done].
    pose proof (min_shifts_le pool i Hi).
    destruct (min_shifts_attained pool) as (j & Hj & Hmin).
    { intros ->. by apply elem_of_nil in Hi. }
    specialize (Hle j Hj). lia.
Qed.

End pools.

(** ** Tie-breaks *)

Lemma random_choice_member rng : picks_member (random_choice rng).
Proof.
  intros k cs Hcs. unfold random_choice.
  apply list_elem_of_lookup_total_2, Nat.mod_upper_bound.
  by destruct cs.
Qed.

Lemma first_choice_first : picks_first first_choice.
Proof. by intros k c cs. Qed.

Lemma picks_first_member choice : picks_first choice → picks_member choice.
Proof. intros H k [|c cs] ?; [done|]. rewrite H. left. Qed.

(** ** One date of the loop *)

Section step.

Context (choice : tie_break) (closure_days : gset date).
Implicit Types (st : Run) (d : date) (pool : list nat).

Lemma branch_of_spec st d :
  match branch_of closure_days st d with
  | closure_day => (d ∈ closure_days)
  | shift_from pool =>
      (d ∉ closure_days) ∧ pool ≠ [] ∧
      pool = avoid_last (roster st) (last_assigned_staff st)
                        (relevant_pool (roster st) d)
  | nobody => (d ∉ closure_days) ∧ relevant_pool (roster st) d = []
  end.
Proof.
  unfold branch_of, relevant_pool. case_decide; [done|].
  destruct (available (roster st) d) as [|i l] eqn:Ha; cbv iota.
  - replace (avoid_last (roster st) (last_assigned_staff st) [])
      with (@nil nat) by (by destruct (last_assigned_staff st)).
    destruct (avoid_last _ _ (back_to_back _ _)) eqn:Hb.
    + apply (proj1 (avoid_last_nil _ _ _)) in Hb. by split.
    + done.
  - destruct (avoid_last _ _ (i :: l)) eqn:Hb.
    + by apply (proj1 (avoid_last_nil _ _ _)) in Hb.
    + done.
Qed.

Lemma book_person d s : person (book d s) = person s.
Proof. done. Qed.

Lemma alter_book_person d (i : nat) (staff : list Staff) :
  person <$> alter (book d) i staff = person <$> staff.
Proof.
  rewrite (list_fmap_alter person (book d) id) by (by apply Forall_forall).
  by apply list_alter_id.
Qed.

Lemma process_date_person st d :
  person <$> roster (process_date choice closure_days st d)
  = person <$> roster st.
Proof.
  unfold process_date. destruct (branch_of closure_days st d); try done.
  apply alter_book_person.
Qed.

(** Each date adds one row, which carries the date. *)
Lemma process_date_row st d :
  ∃ e, rota_data (process_date choice closure_days st d) = rota_data st ++ [e] ∧
       Date e = strftime_dmy d.
Proof.
  unfold process_date. destruct (branch_of closure_days st d); by eexists.
Qed.

Lemma rota_loop_snoc st ds d :
  rota_loop choice closure_days st (ds ++ [d])
  = process_date choice closure_days (rota_loop choice closure_days st ds) d.
Proof. unfold rota_loop. by rewrite foldl_app. Qed.

Lemma rota_loop_app st ds1 ds2 :
  rota_loop choice closure_days st (ds1 ++ ds2)
  = rota_loop choice closure_days (rota_loop choice closure_days st ds1) ds2.
Proof. unfold rota_loop. by rewrite foldl_app. Qed.

Lemma rota_loop_person st ds :
  person <$> roster (rota_loop choice closure_days st ds) = person <$> roster st.
Proof.
  induction ds as [|d ds IH] using rev_ind; [done|].
  by rewrite rota_loop_snoc, process_date_person.
Qed.

Lemma rota_loop_rows st ds :
  Date <$> rota_data (rota_loop choice closure_days st ds)
  = (Date <$> rota_data st) ++ (strftime_dmy <$> ds).
Proof.
  induction ds as [|d ds IH] using rev_ind.
  - by rewrite app_nil_r.
  - rewrite rota_loop_snoc.
    destruct (process_date_row (rota_loop choice closure_days st ds) d)
      as (e & -> & He).
    rewrite !fmap_app, IH. cbn [fmap list_fmap]. rewrite He.
    by rewrite (assoc_L (++)).
Qed.

Lemma rota_loop_length st ds :
  length (rota_data (rota_loop choice closure_days st ds))
  = (length (rota_data st) + length ds)%nat.
Proof.
  rewrite <- (length_fmap Date), rota_loop_rows.
  by rewrite length_app, !length_fmap.
Qed.

(** The rows already built are never changed. *)
Lemma rota_loop_rows_prefix st ds :
  rota_data st `prefix_of` rota_data (rota_loop choice closure_days st ds).
Proof.
  induction ds as [|d ds IH] using rev_ind; [done|].
  rewrite rota_loop_snoc.
  destruct (process_date_row (rota_loop choice closure_days st ds) d)
    as (e & -> & _).
  by apply prefix_app_r.
Qed.

End step.

(** ** The whole run *)

Section run.

Context (choice : tie_break) (dates : list date) (staff : list Staff)
        (closure_days : gset date).

Local Notation "'reached' k" := (before choice dates staff closure_days k)
  (at level 10, k at level 9, only parsing).

Lemma run_rota_take_S k d :
  dates !! k = Some d →
  reached (S k) = process_date choice closure_days (reached k) d.
Proof.
  intros Hk. unfold before, run_rota.
  by rewrite (take_S_r _ _ _ Hk), rota_loop_snoc.
Qed.

Lemma generate_rota_dates :
  Date <$> generate_rota choice dates staff closure_days = strftime_dmy <$> dates.
Proof. unfold generate_rota, run_rota. by rewrite rota_loop_rows. Qed.

Lemma generate_rota_length :
  length (generate_rota choice dates staff closure_days) = length dates.
Proof.
  rewrite <- (length_fmap Date), generate_rota_dates. apply length_fmap.
Qed.

Lemma run_rota_person :
  person <$> roster_after choice dates staff closure_days = person <$> staff.
Proof. apply rota_loop_person. Qed.

(** The row at position [k] is the one that the date at position [k] adds. *)
Lemma generate_rota_lookup k d :
  dates !! k = Some d →
  ∃ e, generate_rota choice dates staff closure_days !! k = Some e ∧
       rota_data (process_date choice closure_days (reached k) d)
       = rota_data (reached k) ++ [e].
Proof.
  intros Hk.
  destruct (process_date_row choice closure_days (reached k) d) as (e & He & _).
  exists e. split; [|done].
  assert (length (rota_data (reached k)) = k) as Hlen.
  { unfold before, run_rota. rewrite rota_loop_length, length_take.
    apply lookup_lt_Some in Hk. cbn. lia. }
  unfold generate_rota.
  rewrite <- (take_drop (S k) dates) at 1. unfold run_rota.
  rewrite rota_loop_app.
  eapply prefix_lookup_Some; [|apply rota_loop_rows_prefix].
  change (rota_data (reached (S k)) !! k = Some e).
  rewrite (run_rota_take_S k d Hk), He.
  rewrite lookup_app_r by lia. by rewrite Hlen, Nat.sub_diag.
Qed.

End run.

(** * The properties of the rota *)

Lemma closure_note_prefix names :
  String.prefix "University Closure" (closure_note names) = true.
Proof. by destruct names. Qed.

(** C4 (closure precedence). The row of a date of the sequence that is a
    closure day has the shift [CLOSED] and notes that begin with
    "University Closure", whoever is on the roster and whatever the
    tie-break; processing that date leaves the roster as it was (no
    [assigned_dates], no [shift_count] changes) and resets the name of the
    last assigned staff member. *)
Theorem closure_day_row (choice : tie_break) (dates : list date)
    (staff : list Staff) (closure_days : gset date) (k : nat) (d : date) :
  dates !! k = Some d →
  d ∈ closure_days →
  ∃ e, generate_rota choice dates staff closure_days !! k = Some e ∧
       Date e = strftime_dmy d ∧
       Shift e = CLOSED ∧
       String.prefix "University Closure" (Notes e) = true ∧
       roster (before choice dates staff closure_days (S k))
         = roster (before choice dates staff closure_days k) ∧
       last_assigned_staff (before choice dates staff closure_days (S k)) = None.
Proof.
  intros Hk Hd.
  destruct (generate_rota_lookup choice dates staff closure_days k d Hk)
    as (e & He & Hrow).
  exists e. split; [done|].
  rewrite (run_rota_take_S _ _ _ _ k d Hk).
  revert Hrow. unfold process_date.
  pose proof (branch_of_spec closure_days
                (before choice dates staff closure_days k) d) as Hb.
  destruct (branch_of _ _ _); [|by destruct Hb..].
  cbn [rota_data roster last_assigned_staff].
  intros [= <-]%(inj (app _)). repeat split. apply closure_note_prefix.
Qed.

Lemma closure_day_row_witness :
  ∃ e, generate_rota first_choice [monday; tuesday] staff_list {[tuesday]} !! 1%nat
         = Some e ∧
       Date e = "03/11/2026" ∧ Shift e = CLOSED ∧
       String.prefix "University Closure" (Notes e) = true ∧
       roster (before first_choice [monday; tuesday] staff_list {[tuesday]} 2)
         = roster (before first_choice [monday; tuesday] staff_list {[tuesday]} 1) ∧
       last_assigned_staff
         (before first_choice [monday; tuesday] staff_list {[tuesday]} 2) = None.
Proof.
  apply (closure_day_row first_choice [monday; tuesday] staff_list {[tuesday]}
           1 tuesday).
  - reflexivity.
  - vm_compute. reflexivity.
Defined.

(** ** Completeness *)

Lemma StronglySorted_seq a k : StronglySorted lt (seq a k).
Proof.
  revert a. induction k as [|k IH]; intros a; cbn [seq]; constructor; [done|].
  apply Forall_forall. intros x Hx%elem_of_seq. lia.
Qed.

Lemma StronglySorted_seqZ a n : StronglySorted Z.lt (seqZ a n).
Proof.
  unfold seqZ. eapply StronglySorted_fmap, StronglySorted_seq.
  intros x y Hxy. cbn beta. lia.
Qed.

Lemma StronglySorted_filter {A} (R : relation A) (P : A → Prop)
    `{!∀ x, Decision (P x)} (l : list A) :
  StronglySorted R l → StronglySorted R (filter P l).
Proof.
  induction 1 as [|x l Hl IH Hx]; [constructor|].
  rewrite filter_cons. case_decide; [|done].
  constructor; [done|]. apply Forall_forall.
  intros z [_ Hz]%list_elem_of_filter. rewrite Forall_forall in Hx. auto.
Qed.

Lemma month_days_sorted y m : StronglySorted date_lt (month_days y m).
Proof.
  unfold month_days. eapply StronglySorted_fmap, StronglySorted_seqZ.
  intros a b Hab. unfold date_lt. cbn [year month day]. lia.
Qed.

Lemma elem_of_month_days y m d :
  1 ≤ y ≤ 9999 → 1 ≤ m ≤ 12 →
  d ∈ month_days y m ↔ valid_date d = true ∧ year d = y ∧ month d = m.
Proof.
  intros Hy Hm. unfold month_days.
  rewrite list_elem_of_fmap, valid_date_spec. split.
  - intros (k & -> & Hk%elem_of_seqZ). cbn [year month day]. lia.
  - intros ((_ & _ & Hd) & <- & <-). exists (day d).
    split; [by destruct d|]. apply elem_of_seqZ. lia.
Qed.


Lemma StronglySorted_date_lt_NoDup (l : list date) :
  StronglySorted date_lt l → NoDup l.
Proof.
  induction 1 as [|x l Hl IH Hx]; constructor; [|done].
  intros Hin. rewrite Forall_forall in Hx. specialize (Hx x Hin).
  unfold date_lt in Hx. lia.
Qed.

(** C2 (completeness). For every year and month, the working dates of the
    month are produced ([generate_dates] raises nothing); they are exactly
    the Monday-to-Friday dates of that month, in strictly ascending order
    (so none is duplicated); and the rota has one row per working date, in
    that order: the [Date] texts of its rows are the working dates
    formatted one by one, and no two rows carry the same text, whatever the
    roster, the closure set and the tie-break. *)
Theorem rota_complete (choice : tie_break) (y m : Z) (staff : list Staff)
    (closure_days : gset date) :
  1 ≤ y ≤ 9999 →
  1 ≤ m ≤ 12 →
  ∃ ds, generate_dates y m = Some ds ∧
        (∀ d, d ∈ ds ↔
              valid_date d = true ∧ year d = y ∧ month d = m ∧ weekday d < 5) ∧
        StronglySorted date_lt ds ∧
        Date <$> generate_rota choice ds staff closure_days
          = strftime_dmy <$> ds ∧
        NoDup (Date <$> generate_rota choice ds staff closure_days).
Proof.
  intros Hy Hm. eexists. split; [by apply generate_dates_eq|].
  assert (StronglySorted date_lt
            (filter (λ d, weekday d < 5) (month_days y m))) as Hsorted
    by apply StronglySorted_filter, month_days_sorted.
  split; [|split; [done|split]].
  - intros d. rewrite list_elem_of_filter, elem_of_month_days by done. tauto.
  - apply generate_rota_dates.
  - rewrite generate_rota_dates.
    apply NoDup_fmap_2_strong; [|by apply StronglySorted_date_lt_NoDup].
    intros d1 d2 [_ Hd1]%list_elem_of_filter [_ Hd2]%list_elem_of_filter.
    apply elem_of_month_days in Hd1 as [? _]; [|done..].
    apply elem_of_month_days in Hd2 as [? _]; [|done..].
    by apply strftime_inj.
Qed.

Lemma rota_complete_witness :
  ∃ ds, generate_dates 2026 11 = Some ds ∧
        (∀ d, d ∈ ds ↔
              valid_date d = true ∧ year d = 2026 ∧ month d = 11 ∧ weekday d < 5) ∧
        StronglySorted date_lt ds ∧
        Date <$> generate_rota first_choice ds staff_list {[tuesday]}
          = strftime_dmy <$> ds ∧
        NoDup (Date <$> generate_rota first_choice ds staff_list {[tuesday]}).
Proof.
  apply (rota_complete first_choice 2026 11 staff_list {[tuesday]}); lia.
Defined.

(** ** Rows and the validator *)

Section rows.

Context (choice : tie_break) (dates : list date) (staff : list Staff)
        (closure_days : gset date).

Local Notation "'reached' k" := (before choice dates staff closure_days k)
  (at level 10, k at level 9, only parsing).
Local Notation "'rota'" := (generate_rota choice dates staff closure_days)
  (only parsing).

Lemma row_at k d e :
  dates !! k = Some d → rota !! k = Some e →
  rota_data (process_date choice closure_days (reached k) d)
  = rota_data (reached k) ++ [e].
Proof.
  intros Hk He.
  destruct (generate_rota_lookup choice dates staff closure_days k d Hk)
    as (e' & He' & Hrow).
  by simplify_eq.
Qed.

Lemma row_date k e :
  rota !! k = Some e → ∃ d, dates !! k = Some d ∧ Date e = strftime_dmy d.
Proof.
  intros He.
  assert ((Date <$> rota) !! k = Some (Date e)) as HD
    by (by rewrite list_lookup_fmap, He).
  rewrite generate_rota_dates, list_lookup_fmap in HD.
  destruct (dates !! k) as [d|]; [|done]. exists d. by simplify_eq/=.
Qed.

Lemma roster_reached_person k :
  person <$> roster (reached k) = person <$> staff.
Proof. apply rota_loop_person. Qed.

End rows.

Lemma validate_shifts_nil df staff :
  validate_shifts df staff = [] ↔ ∀ row, row ∈ df → validate_row staff row = [].
Proof.
  unfold validate_shifts. split.
  - intros Hnil row Hrow. apply elem_of_nil_inv. intros w Hw.
    assert (w ∈ df ≫= validate_row staff) as Hin
      by (apply list_elem_of_bind; eauto).
    rewrite Hnil in Hin. by apply elem_of_nil in Hin.
  - intros Hall. apply elem_of_nil_inv.
    intros w (row & Hw & Hrow)%list_elem_of_bind.
    rewrite (Hall row Hrow) in Hw. by apply elem_of_nil in Hw.
Qed.




(** ** Who gets the shift *)

Lemma person_lookup_total (l l' : list Staff) (i : nat) :
  person <$> l = person <$> l' → person (l !!! i) = person (l' !!! i).
Proof.
  intros H.
  assert (person <$> l !! i = person <$> l' !! i) as Hi
    by (by rewrite <- !list_lookup_fmap, H).
  rewrite !list_lookup_total_alt.
  destruct (l !! i), (l' !! i); cbn in *; congruence.
Qed.

Lemma person_length (l l' : list Staff) :
  person <$> l = person <$> l' → length l = length l'.
Proof. intros H. by rewrite <- (length_fmap person l), H, length_fmap. Qed.

Lemma name_position_inj (staff : list Staff) (i j : nat) :
  NoDup (name <$> staff) →
  (i < length staff)%nat → (j < length staff)%nat →
  name (staff !!! i) = name (staff !!! j) → i = j.
Proof.
  intros Hnd Hi Hj Hn.
  apply (NoDup_lookup _ i j (name (staff !!! i)) Hnd).
  - by rewrite list_lookup_fmap, (list_lookup_lookup_total_lt _ _ Hi).
  - by rewrite list_lookup_fmap, (list_lookup_lookup_total_lt _ _ Hj), Hn.
Qed.

(** The one selected is in the pool and nobody in the pool has fewer
    shifts. *)
Lemma selected_spec (choice : tie_break) (st : Run) (pool : list nat) :
  picks_member choice → pool ≠ [] →
  selected choice st pool ∈ pool ∧
  ∀ j, j ∈ pool →
       shift_count (roster st !!! selected choice st pool)
       ≤ shift_count (roster st !!! j).
Proof.
  intros Hc Hpool. apply elem_of_candidates, Hc. by apply candidates_nonempty.
Qed.

(** When a shift is given, it goes to somebody of the roster who is on duty
    that date. *)
Lemma selected_on_duty (choice : tie_break) (closure_days : gset date)
    (st : Run) (d : date) (pool : list nat) :
  picks_member choice →
  branch_of closure_days st d = shift_from pool →
  (selected choice st pool < length (roster st))%nat ∧
  on_duty d (roster st !!! selected choice st pool).
Proof.
  intros Hc Hb. pose proof (branch_of_spec closure_days st d) as Hs.
  rewrite Hb in Hs. destruct Hs as (_ & Hne & Hpool).
  destruct (selected_spec choice st pool Hc Hne) as [Hsel _].
  rewrite Hpool in Hsel at 2.
  by apply avoid_last_subseteq, elem_of_relevant_pool in Hsel.
Qed.

Section no_holiday_shift.

Context (choice : tie_break) (Hchoice : picks_member choice).
Context (dates : list date) (staff : list Staff) (closure_days : gset date).
Context (Hnames : NoDup (name <$> staff)).
Context (Hsentinel : Forall (λ s, name s ≠ CLOSED ∧ name s ≠ UNASSIGNED) staff).

Local Notation "'reached' k" := (before choice dates staff closure_days k)
  (at level 10, k at level 9, only parsing).
Local Notation "'rota'" := (generate_rota choice dates staff closure_days)
  (only parsing).

Lemma shift_not_on_holiday k d e s :
  dates !! k = Some d → rota !! k = Some e →
  s ∈ staff → Shift e = name s → d ∉ holidays s.
Proof.
  intros Hk He Hs Hshift.
  pose proof (row_at _ _ _ _ k d e Hk He) as Hrow.
  rewrite Forall_forall in Hsentinel. destruct (Hsentinel s Hs) as [Hc Hu].
  pose proof (roster_reached_person choice dates staff closure_days k) as Hp.
  unfold process_date in Hrow.
  destruct (branch_of closure_days (reached k) d) as [|pool|] eqn:Hb;
    cbn [rota_data] in Hrow; apply (inj (app _)) in Hrow as [= <-];
    cbn [Shift row] in Hshift; [by rewrite Hshift in Hc| |by rewrite Hshift in Hu].
  destruct (selected_on_duty _ _ _ _ _ Hchoice Hb) as [Hlt [_ Hhol]].
  set (sel := selected choice (reached k) pool) in *.
  apply list_elem_of_lookup_total_1 in Hs as (j & Hj & <-).
  pose proof (person_lookup_total _ _ sel Hp) as [= Hn _ Hh].
  rewrite (person_length _ _ Hp) in Hlt.
  rewrite Hn in Hshift.
  assert (sel = j) as <- by (by apply (name_position_inj staff)).
  by rewrite <- Hh.
Qed.

(** No row is on a holiday of the member it names, in the roster as the run
    leaves it. *)
Lemma no_holiday_row k d e :
  dates !! k = Some d → rota !! k = Some e →
  filter (λ s, Shift e = name s ∧ d ∈ holidays s)
         (roster_after choice dates staff closure_days) = [].
Proof.
  intros Hd He. apply elem_of_nil_inv.
  intros s' [[Hshift Hhol] Hs']%list_elem_of_filter.
  assert (person s' ∈ person <$> staff) as (s & [= Hn _ Hh] & Hs)%list_elem_of_fmap.
  { rewrite <- (run_rota_person choice dates staff closure_days).
    by apply list_elem_of_fmap_2. }
  rewrite Hn in Hshift. rewrite Hh in Hhol.
  by apply (shift_not_on_holiday k d e s).
Qed.

(** The validator reports no holiday conflict, whatever the year. *)
Lemma validator_no_conflict :
  Forall (λ d, valid_date d = true) dates →
  ∀ w, w ∈ validate_shifts rota (roster_after choice dates staff closure_days) →
       ∀ who text, w ≠ AssignedOnHoliday who text.
Proof.
  intros Hv w (e & Hw & (k & He)%list_elem_of_lookup_1)%list_elem_of_bind
    who text ->.
  destruct (row_date _ _ _ _ _ _ He) as (d & Hd & HD).
  rewrite Forall_forall in Hv.
  assert (valid_date d = true) as Hvd by (by eapply Hv, list_elem_of_lookup_2).
  unfold validate_row in Hw. rewrite HD in Hw.
  destruct (strptime_dmy (strftime_dmy d)) as [d'|] eqn:Hp.
  - apply strptime_strftime_Some in Hp as ->; [|done].
    rewrite (no_holiday_row k d e Hd He) in Hw. by apply elem_of_nil in Hw.
  - by apply list_elem_of_singleton in Hw.
Qed.

(** From the year 1000 on it reports nothing at all. *)
Lemma validator_silent :
  Forall (λ d, valid_date d = true ∧ 1000 ≤ year d) dates →
  validate_shifts rota (roster_after choice dates staff closure_days) = [].
Proof.
  intros Hv. apply validate_shifts_nil.
  intros e (k & He)%list_elem_of_lookup_1.
  destruct (row_date _ _ _ _ _ _ He) as (d & Hd & HD).
  rewrite Forall_forall in Hv.
  destruct (Hv d) as [Hvd Hyd]; [by eapply list_elem_of_lookup_2|].
  unfold validate_row.
  rewrite HD, strptime_strftime by done.
  by rewrite (no_holiday_row k d e Hd He).
Qed.

End no_holiday_shift.

(** C1 as stated fails for a roster with a member whose name is the text
    of a sentinel: a member named "CLOSED" on holiday on a closure day. The
    row of that day has [Shift] equal to the name and a date in the
    holiday set, and the validator reports it. *)
Lemma holiday_exclusion_counterexample :
  let rota := generate_rota (random_choice (λ _, 0%nat)) [monday]
                staff_named_closed {[monday]} in
  let s := mkStaff "CLOSED" [0; 1; 2; 3; 4] {[monday]} ∅ 0 in
  Forall is_reset staff_named_closed ∧
  s ∈ staff_named_closed ∧
  (∃ e, rota !! 0%nat = Some e ∧ Shift e = name s ∧
        strptime_dmy (Date e) = Some monday ∧ monday ∈ holidays s) ∧
  validate_shifts rota
    (roster_after (random_choice (λ _, 0%nat)) [monday]
       staff_named_closed {[monday]})
  = [AssignedOnHoliday "CLOSED" "02/11/2026"].
Proof.
  cbv zeta. split; [repeat constructor|]. split; [left|].
  split; [|by vm_compute].
  eexists. split; [by vm_compute|]. by vm_compute.
Qed.

(** C1 (holiday exclusion), amended. For a roster whose names are pairwise
    distinct and none of which is the text of a sentinel ([CLOSED],
    [UNASSIGNED]), reset at the start of the run, and a sequence of
    calendar dates: every row whose shift is the name of a staff member was
    written for a date that is not in the holiday set of that member (the
    [Date] of the row is that date formatted, and reads as no other date),
    and the validator run on the rota returns no holiday-conflict
    warning. *)
Theorem holiday_exclusion (rng : nat → nat) (dates : list date)
    (staff : list Staff) (closure_days : gset date) :
  NoDup (name <$> staff) →
  Forall (λ s, name s ≠ CLOSED ∧ name s ≠ UNASSIGNED) staff →
  Forall is_reset staff →
  Forall (λ d, valid_date d = true) dates →
  (∀ k e s,
     generate_rota (random_choice rng) dates staff closure_days !! k = Some e →
     s ∈ staff → Shift e = name s →
     ∃ d, dates !! k = Some d ∧ Date e = strftime_dmy d ∧
          (∀ d', strptime_dmy (Date e) = Some d' → d' = d) ∧
          d ∉ holidays s) ∧
  ∀ w, w ∈ validate_shifts
             (generate_rota (random_choice rng) dates staff closure_days)
             (roster_after (random_choice rng) dates staff closure_days) →
       ∀ who text, w ≠ AssignedOnHoliday who text.
Proof.
  intros Hnd Hsent _ Hv. split.
  - intros k e s He Hs Hshift.
    destruct (row_date _ _ _ _ _ _ He) as (d & Hd & HD).
    exists d. split; [done|]. split; [done|]. split.
    + intros d'. rewrite HD. apply strptime_strftime_Some.
      rewrite Forall_forall in Hv. eapply Hv, list_elem_of_lookup_2, Hd.
    + by eapply (shift_not_on_holiday _ (random_choice_member rng)).
  - by apply validator_no_conflict; [apply random_choice_member|..].
Qed.

Lemma holiday_exclusion_witness :
  (∀ k e s,
     generate_rota (random_choice (λ n, n)) [monday; tuesday] staff_on_leave
                   ∅ !! k = Some e →
     s ∈ staff_on_leave → Shift e = name s →
     ∃ d, [monday; tuesday] !! k = Some d ∧ Date e = strftime_dmy d ∧
          (∀ d', strptime_dmy (Date e) = Some d' → d' = d) ∧
          d ∉ holidays s) ∧
  ∀ w, w ∈ validate_shifts
             (generate_rota (random_choice (λ n, n)) [monday; tuesday]
                staff_on_leave ∅)
             (roster_after (random_choice (λ n, n)) [monday; tuesday]
                staff_on_leave ∅) →
       ∀ who text, w ≠ AssignedOnHoliday who text.
Proof.
  apply (holiday_exclusion (λ n, n) [monday; tuesday] staff_on_leave ∅).
  - apply (bool_decide_unpack _). vm_compute. exact I.
  - repeat constructor; discriminate.
  - repeat constructor.
  - repeat constructor.
Defined.

(** ** Nobody to give the shift to *)

Lemma on_duty_person d s s' : person s = person s' → on_duty d s → on_duty d s'.
Proof. intros [= _ Ho Hh] [? ?]. split; congruence. Qed.

Lemma someone_on_duty_person d (l l' : list Staff) :
  person <$> l = person <$> l' →
  (∃ s, s ∈ l ∧ on_duty d s) → ∃ s, s ∈ l' ∧ on_duty d s.
Proof.
  intros Hp (s & Hs & Hd).
  assert (person s ∈ person <$> l') as (s' & Hs' & ?)%list_elem_of_fmap
    by (rewrite <- Hp; by apply list_elem_of_fmap_2).
  exists s'. split; [done|]. by apply (on_duty_person d s).
Qed.

(** C5 as stated fails for a roster with a member named "UNASSIGNED": the
    member is on duty and gets the shift, so the row reads [UNASSIGNED]
    although somebody is on duty, and the roster is changed. *)
Lemma unassigned_iff_counterexample :
  let run k := before (random_choice (λ _, 0%nat)) [monday]
                 staff_named_unassigned ∅ k in
  (monday ∉ (∅ : gset date)) ∧
  (∃ e, generate_rota (random_choice (λ _, 0%nat)) [monday]
          staff_named_unassigned ∅ !! 0%nat = Some e ∧
        Shift e = UNASSIGNED) ∧
  (∃ s, s ∈ staff_named_unassigned ∧ on_duty monday s) ∧
  shift_count <$> roster (run 0%nat) = [0] ∧
  shift_count <$> roster (run 1%nat) = [1].
Proof.
  cbv zeta. split; [set_solver|].
  split; [eexists; split; by vm_compute|].
  split; [|split; by vm_compute].
  eexists. split; [left|]. apply (bool_decide_unpack _). by vm_compute.
Qed.

(** C5 (the [UNASSIGNED] outcome), amended. For a roster with no member
    named "UNASSIGNED" and a date of the sequence that is not a closure
    day: the row has the shift [UNASSIGNED] exactly when no staff member
    has the weekday among the office days and the date outside the
    holidays; when there is such a member, the shift is the name of one
    of them; and when the shift is [UNASSIGNED] the roster is left as it
    was. *)
Theorem unassigned_iff (rng : nat → nat) (dates : list date)
    (staff : list Staff) (closure_days : gset date) (k : nat) (d : date) :
  Forall (λ s, name s ≠ UNASSIGNED) staff →
  dates !! k = Some d →
  d ∉ closure_days →
  ∃ e, generate_rota (random_choice rng) dates staff closure_days !! k = Some e ∧
       (Shift e = UNASSIGNED ↔ ¬ ∃ s, s ∈ staff ∧ on_duty d s) ∧
       ((∃ s, s ∈ staff ∧ on_duty d s) →
        ∃ s, s ∈ staff ∧ on_duty d s ∧ Shift e = name s) ∧
       (Shift e = UNASSIGNED →
        roster (before (random_choice rng) dates staff closure_days (S k))
        = roster (before (random_choice rng) dates staff closure_days k)).
Proof.
  intros Hsent Hk Hd.
  set (choice := random_choice rng).
  destruct (generate_rota_lookup choice dates staff closure_days k d Hk)
    as (e & He & Hrow).
  exists e. split; [done|].
  rewrite (run_rota_take_S _ _ _ _ k d Hk).
  pose proof (roster_reached_person choice dates staff closure_days k) as Hp.
  pose proof (branch_of_spec closure_days
                (before choice dates staff closure_days k) d) as Hs.
  unfold process_date in *.
  destruct (branch_of closure_days _ d) as [|pool|] eqn:Hb;
    cbn [rota_data roster] in *; apply (inj (app _)) in Hrow as [= <-];
    cbn [Shift row]; [done| |].
  - destruct (selected_on_duty _ _ _ _ _ (random_choice_member rng) Hb)
      as [Hlt Hduty].
    set (sel := selected choice _ pool) in *.
    pose proof (person_lookup_total _ _ sel Hp) as Hsel.
    rewrite (person_length _ _ Hp) in Hlt.
    assert (staff !!! sel ∈ staff) as Hin
      by (by apply list_elem_of_lookup_total_2).
    assert (name (roster (before choice dates staff closure_days k) !!! sel)
            = name (staff !!! sel)) as -> by (by injection Hsel).
    assert (on_duty d (staff !!! sel)) as Hduty'
      by (by eapply on_duty_person).
    rewrite Forall_forall in Hsent. pose proof (Hsent _ Hin) as Hne.
    split; [|split]; [split| |]; [done|intros []|eauto|done]. eauto.
  - destruct Hs as [_ Hnil%relevant_pool_nil].
    assert (¬ ∃ s, s ∈ staff ∧ on_duty d s) as Hno.
    { intros Hex. apply Hnil. by apply (someone_on_duty_person d staff). }
    split; [|split]; [done| |done]. by intros ?.
Qed.

Lemma unassigned_iff_witness :
  ∃ e, generate_rota (random_choice (λ n, n)) [monday; thursday]
         staff_on_leave ∅ !! 1%nat = Some e ∧
       (Shift e = UNASSIGNED ↔ ¬ ∃ s, s ∈ staff_on_leave ∧ on_duty thursday s) ∧
       ((∃ s, s ∈ staff_on_leave ∧ on_duty thursday s) →
        ∃ s, s ∈ staff_on_leave ∧ on_duty thursday s ∧ Shift e = name s) ∧
       (Shift e = UNASSIGNED →
        roster (before (random_choice (λ n, n)) [monday; thursday]
                  staff_on_leave ∅ 2)
        = roster (before (random_choice (λ n, n)) [monday; thursday]
                    staff_on_leave ∅ 1)).
Proof.
  apply (unassigned_iff (λ n, n) [monday; thursday] staff_on_leave ∅ 1 thursday).
  - repeat constructor; discriminate.
  - reflexivity.
  - apply (bool_decide_unpack _). vm_compute. exact I.
Defined.

(** ** Load conservation *)

Lemma total_shifts_book d (l : list Staff) (i : nat) :
  (i < length l)%nat → total_shifts (alter (book d) i l) = total_shifts l + 1.
Proof.
  unfold total_shifts. revert i.
  induction l as [|s l IH]; intros [|i] Hi; cbn in *; try lia.
  rewrite IH by lia. lia.
Qed.

Lemma total_shifts_reset (l : list Staff) :
  Forall is_reset l → total_shifts l = 0.
Proof.
  unfold total_shifts. induction 1 as [|s l [_ Hs] _ IH]; [done|].
  cbn. rewrite Hs. apply IH.
Qed.

(** The reset of the program puts every staff member in the reset state
    and keeps who they are. *)
Lemma reset_is_reset (l : list Staff) :
  Forall is_reset (reset <$> l) ∧ person <$> (reset <$> l) = person <$> l.
Proof.
  split.
  - apply Forall_fmap, Forall_forall. by intros s _.
  - rewrite <- list_fmap_compose. by apply list_fmap_ext.
Qed.

Lemma staffed_rows_snoc (df : list Entry) (e : Entry) :
  staffed_rows (df ++ [e])
  = staffed_rows df + (if decide (staffed e) then 1 else 0).
Proof.
  unfold staffed_rows. rewrite filter_app, length_app.
  rewrite filter_cons, filter_nil. case_decide; cbn; lia.
Qed.

Section load.

Context (choice : tie_break) (Hchoice : picks_member choice).
Context (staff : list Staff) (closure_days : gset date).
Context (Hsentinel : Forall (λ s, name s ≠ CLOSED ∧ name s ≠ UNASSIGNED) staff).

(** A date adds as much to the shift counts as it adds rows with a name. *)
Lemma process_date_load st d :
  person <$> roster st = person <$> staff →
  total_shifts (roster (process_date choice closure_days st d))
  - staffed_rows (rota_data (process_date choice closure_days st d))
  = total_shifts (roster st) - staffed_rows (rota_data st).
Proof.
  intros Hp. unfold process_date.
  destruct (branch_of closure_days st d) as [|pool|] eqn:Hb;
    cbn [roster rota_data]; rewrite staffed_rows_snoc.
  - rewrite decide_False; [lia|]. by intros [? _].
  - destruct (selected_on_duty _ _ _ _ _ Hchoice Hb) as [Hlt _].
    set (sel := selected choice st pool) in *.
    rewrite total_shifts_book by done.
    rewrite decide_True; [lia|]. cbn [row Shift]. unfold staffed. cbn [Shift].
    pose proof (person_lookup_total _ _ sel Hp) as [= -> _ _].
    rewrite (person_length _ _ Hp) in Hlt.
    rewrite Forall_forall in Hsentinel.
    by apply Hsentinel, list_elem_of_lookup_total_2.
  - rewrite decide_False; [lia|]. by intros [_ ?].
Qed.

Lemma rota_loop_load st ds :
  person <$> roster st = person <$> staff →
  total_shifts (roster (rota_loop choice closure_days st ds))
  - staffed_rows (rota_data (rota_loop choice closure_days st ds))
  = total_shifts (roster st) - staffed_rows (rota_data st).
Proof.
  intros Hp. induction ds as [|d ds IH] using rev_ind; [done|].
  rewrite rota_loop_snoc, process_date_load; [done|].
  by rewrite rota_loop_person.
Qed.

End load.

(** C6 as stated fails for a roster with a member whose name is the text
    of a sentinel: the member works the Monday, the sum of the shift counts
    is 1, and no row has a shift other than [CLOSED] and [UNASSIGNED]. *)
Lemma load_conservation_counterexample :
  Forall is_reset staff_closed_on_duty ∧
  total_shifts (roster_after (random_choice (λ _, 0%nat)) [monday]
                  staff_closed_on_duty ∅) = 1 ∧
  staffed_rows (generate_rota (random_choice (λ _, 0%nat)) [monday]
                  staff_closed_on_duty ∅) = 0.
Proof. split; [repeat constructor|]. split; by vm_compute. Qed.

(** C6 (load conservation), amended. For a roster with no member named
    "CLOSED" or "UNASSIGNED", reset at the start of the run: after the run
    the sum of the shift counts of the roster is the number of rows whose
    shift is neither [CLOSED] nor [UNASSIGNED]. *)
Theorem load_conservation (rng : nat → nat) (dates : list date)
    (staff : list Staff) (closure_days : gset date) :
  Forall (λ s, name s ≠ CLOSED ∧ name s ≠ UNASSIGNED) staff →
  Forall is_reset staff →
  total_shifts (roster_after (random_choice rng) dates staff closure_days)
  = staffed_rows (generate_rota (random_choice rng) dates staff closure_days).
Proof.
  intros Hsent Hreset.
  pose proof (rota_loop_load (random_choice rng) (random_choice_member rng)
                staff closure_days Hsent (start staff) dates eq_refl) as H.
  cbn [start roster rota_data] in H.
  rewrite (total_shifts_reset staff Hreset) in H.
  unfold roster_after, generate_rota, run_rota.
  change (staffed_rows []) with 0 in H. lia.
Qed.

Lemma load_conservation_witness :
  total_shifts (roster_after (random_choice (λ n, n))
                  [monday; tuesday; wednesday; thursday] staff_list {[tuesday]})
  = staffed_rows (generate_rota (random_choice (λ n, n))
                    [monday; tuesday; wednesday; thursday] staff_list
                    {[tuesday]}).
Proof.
  apply (load_conservation (λ n, n) [monday; tuesday; wednesday; thursday]
           staff_list {[tuesday]}).
  - repeat constructor; discriminate.
  - repeat constructor.
Defined.

(** ** Consecutive days and the least shift count *)

Lemma names_person (l l' : list Staff) :
  person <$> l = person <$> l' → name <$> l = name <$> l'.
Proof.
  intros H.
  change name with ((λ p : string * list Z * gset date, p.1.1) ∘ person).
  by rewrite !list_fmap_compose, H.
Qed.

Lemma NoDup_relevant_pool (staff : list Staff) (d : date) :
  NoDup (relevant_pool staff d).
Proof.
  unfold relevant_pool.
  assert (NoDup (available staff d)) as Ha
    by (apply NoDup_filter, NoDup_seq).
  destruct (available staff d); [|done].
  apply NoDup_filter, NoDup_seq.
Qed.

Lemma NoDup_all_equal {A} (l : list A) (x : A) :
  NoDup l → x ∈ l → (∀ y, y ∈ l → y = x) → l = [x].
Proof.
  intros Hnd Hx Hall. destruct Hnd as [|y l Hy Hnd]; [by apply elem_of_nil in Hx|].
  assert (y = x) as -> by (apply Hall; left).
  f_equal. destruct l as [|z l]; [done|].
  destruct Hy. assert (z = x) as -> by (apply Hall; right; left). left.
Qed.

(** C7 (consecutive-day avoidance). At a date of the run where a shift is
    given, with [n] the name assigned on the previous processed working
    day and [R] the relevant pool (the primary pool, or the fallback pool
    when the primary pool is empty): the row carries the name of the one
    selected; if somebody of [R] has a name other than [n], the one
    selected is not named [n]; and if the one selected is named [n], then
    everybody of [R] is named [n], so that, names being distinct, the one
    selected is the only member of [R]. *)
Theorem consecutive_avoidance (rng : nat → nat) (dates : list date)
    (staff : list Staff) (closure_days : gset date) (k : nat) (d : date)
    (pool : list nat) (n : string) :
  let st := before (random_choice rng) dates staff closure_days k in
  let sel := selected (random_choice rng) st pool in
  let R := relevant_pool (roster st) d in
  dates !! k = Some d →
  branch_of closure_days st d = shift_from pool →
  last_assigned_staff st = Some n →
  (∃ e, generate_rota (random_choice rng) dates staff closure_days !! k = Some e ∧
        Shift e = name (roster st !!! sel)) ∧
  ((∃ j, j ∈ R ∧ name (roster st !!! j) ≠ n) → name (roster st !!! sel) ≠ n) ∧
  (name (roster st !!! sel) = n →
   (∀ j, j ∈ R → name (roster st !!! j) = n) ∧
   (NoDup (name <$> staff) → R = [sel])).
Proof.
  intros st sel R Hk Hb Hlast.
  set (choice := random_choice rng) in *.
  pose proof (branch_of_spec closure_days st d) as Hs.
  rewrite Hb in Hs. destruct Hs as (_ & Hne & Hpool). fold R in Hpool.
  destruct (selected_spec choice st pool (random_choice_member rng) Hne)
    as [Hsel _]. fold sel in Hsel.
  split; [|split].
  - destruct (generate_rota_lookup choice dates staff closure_days k d Hk)
      as (e & He & Hrow).
    exists e. split; [done|]. fold st in Hrow.
    unfold process_date in Hrow. rewrite Hb in Hrow. cbn [rota_data] in Hrow.
    by apply (inj (app _)) in Hrow as [= <-].
  - intros (j & Hj & Hjn).
    destruct (avoid_last_cases (roster st) (last_assigned_staff st) R)
      as [[_ Hall]|(n' & Hn' & Hf & _)].
    + destruct Hjn. by apply (Hall n j).
    + rewrite Hpool, Hf in Hsel.
      apply list_elem_of_filter in Hsel as [Hsn _]. congruence.
  - intros Hn.
    destruct (avoid_last_cases (roster st) (last_assigned_staff st) R)
      as [[Hkeep Hall]|(n' & Hn' & Hf & _)].
    + rewrite Hpool, Hkeep in Hsel.
      split; [intros j Hj; by apply (Hall n j)|].
      intros Hnd. apply NoDup_all_equal; [apply NoDup_relevant_pool|done|].
      intros j Hj.
      pose proof (roster_reached_person choice dates staff closure_days k) as Hp.
      fold st in Hp. apply names_person in Hp.
      apply (name_position_inj (roster st)).
      * by rewrite Hp.
      * by apply elem_of_relevant_pool in Hj as [? _].
      * by apply elem_of_relevant_pool in Hsel as [? _].
      * rewrite Hn. by apply (Hall n j).
    + rewrite Hpool, Hf in Hsel.
      apply list_elem_of_filter in Hsel as [Hsn _]. congruence.
Qed.

Lemma consecutive_avoidance_witness :
  let st := before (random_choice (λ n, n)) [monday; tuesday] staff_list ∅ 1 in
  let sel := selected (random_choice (λ n, n)) st [0; 2; 4]%nat in
  let R := relevant_pool (roster st) tuesday in
  (∃ e, generate_rota (random_choice (λ n, n)) [monday; tuesday] staff_list ∅
          !! 1%nat = Some e ∧
        Shift e = name (roster st !!! sel)) ∧
  ((∃ j, j ∈ R ∧ name (roster st !!! j) ≠ "Jane") →
   name (roster st !!! sel) ≠ "Jane") ∧
  (name (roster st !!! sel) = "Jane" →
   (∀ j, j ∈ R → name (roster st !!! j) = "Jane") ∧
   (NoDup (name <$> staff_list) → R = [sel])).
Proof.
  apply (consecutive_avoidance (λ n, n) [monday; tuesday] staff_list ∅ 1
           tuesday [0; 2; 4]%nat "Jane").
  - reflexivity.
  - vm_compute. reflexivity.
  - vm_compute. reflexivity.
Defined.

(** C3 as stated fails: on the Thursday, Claire (position 0) is eligible
    with one shift, but she worked the Wednesday, so she is dropped from
    the pool and the shift goes to Sarmad (position 1), who has two. *)
Lemma fewest_shifts_counterexample :
  let st := before (random_choice (λ _, 0%nat)) week staff_two ∅ 3 in
  Forall is_reset staff_two ∧
  week !! 3%nat = Some thursday ∧
  branch_of ∅ st thursday = shift_from [1%nat] ∧
  selected (random_choice (λ _, 0%nat)) st [1%nat] = 1%nat ∧
  eligible (roster st) thursday 0 ∧
  shift_count (roster st !!! 0%nat) = 1 ∧
  shift_count (roster st !!! 1%nat) = 2.
Proof.
  cbv zeta. split; [repeat constructor|].
  split; [reflexivity|]. split; [by vm_compute|]. split; [by vm_compute|].
  split; [|split; by vm_compute].
  apply (bool_decide_unpack _). by vm_compute.
Qed.

(** C3 (fairness), amended. At a date of the run where a shift is given,
    the one selected has no more shifts than any eligible staff member
    (on duty that date and not yet assigned that date) whose name is not
    the one assigned on the previous processed working day; when every
    eligible staff member has that name, the one selected has no more
    shifts than any of them. *)
Theorem fewest_shifts_first (rng : nat → nat) (dates : list date)
    (staff : list Staff) (closure_days : gset date) (k : nat) (d : date)
    (pool : list nat) (j : nat) :
  let st := before (random_choice rng) dates staff closure_days k in
  let sel := selected (random_choice rng) st pool in
  dates !! k = Some d →
  branch_of closure_days st d = shift_from pool →
  eligible (roster st) d j →
  last_assigned_staff st ≠ Some (name (roster st !!! j)) ∨
    (∀ i, eligible (roster st) d i →
          last_assigned_staff st = Some (name (roster st !!! i))) →
  shift_count (roster st !!! sel) ≤ shift_count (roster st !!! j).
Proof.
  intros st sel _ Hb Hj Hlast.
  pose proof (branch_of_spec closure_days st d) as Hs.
  rewrite Hb in Hs. destruct Hs as (_ & Hne & Hpool).
  destruct (selected_spec (random_choice rng) st pool
              (random_choice_member rng) Hne) as [_ Hmin].
  apply Hmin. clear Hmin.
  assert (relevant_pool (roster st) d = available (roster st) d) as HR.
  { unfold relevant_pool.
    destruct (available (roster st) d) eqn:E; [|done].
    assert (j ∈ available (roster st) d) as Hin by (by apply elem_of_available).
    rewrite E in Hin. by apply elem_of_nil in Hin. }
  rewrite HR in Hpool.
  assert (j ∈ available (roster st) d) as Hin by (by apply elem_of_available).
  destruct (avoid_last_cases (roster st) (last_assigned_staff st)
              (available (roster st) d))
    as [[Hkeep _]|(n & Hn & Hf & Hnn)].
  - by rewrite Hpool, Hkeep.
  - rewrite Hpool, Hf. apply list_elem_of_filter. split; [|done].
    intros Hjn. destruct Hlast as [Hlast|Hall]; [by rewrite Hn, Hjn in Hlast|].
    apply Hnn. rewrite Hf. apply elem_of_nil_inv.
    intros i [Hi Hia%elem_of_available]%list_elem_of_filter.
    specialize (Hall i Hia). congruence.
Qed.

Lemma fewest_shifts_first_witness :
  let st := before (random_choice (λ n, n)) [monday; tuesday] staff_list ∅ 1 in
  let sel := selected (random_choice (λ n, n)) st [0; 2; 4]%nat in
  shift_count (roster st !!! sel) ≤ shift_count (roster st !!! 2%nat).
Proof.
  apply (fewest_shifts_first (λ n, n) [monday; tuesday] staff_list ∅ 1 tuesday
           [0; 2; 4]%nat 2%nat).
  - reflexivity.
  - vm_compute. reflexivity.
  - apply (bool_decide_unpack _). vm_compute. exact I.
  - left. vm_compute. discriminate.
Defined.

(** ** The two per-run fields *)

Section tally.

Context (choice : tie_break) (closure_days : gset date).

Lemma book_tallied seen d s :
  d ∉ seen → tallied seen s → tallied ({[d]} ∪ seen) (book d s).
Proof.
  intros Hd [Hsub Hc]. unfold tallied, counted in *. cbn [book assigned_dates shift_count].
  split; [by apply union_mono_l|].
  rewrite size_union by (apply disjoint_singleton_l; intros ?; auto).
  rewrite size_singleton. lia.
Qed.

Lemma process_date_tallied seen st d :
  d ∉ seen →
  Forall (tallied seen) (roster st) →
  Forall (tallied ({[d]} ∪ seen))
         (roster (process_date choice closure_days st d)).
Proof.
  intros Hd Hall.
  assert (Forall (tallied ({[d]} ∪ seen)) (roster st)) as Hweak.
  { eapply Forall_impl; [done|]. intros s [? ?].
    split; [by apply union_subseteq_r'|done]. }
  unfold process_date.
  destruct (branch_of closure_days st d); cbn [roster]; try done.
  rewrite Forall_lookup in Hall, Hweak |- *.
  intros i s. rewrite list_lookup_alter. case_decide as Hi; [|by apply Hweak].
  subst i. destruct (roster st !! _) as [s0|] eqn:Hs0; [|done].
  intros [= <-]. apply book_tallied; [done|]. by eapply Hall.
Qed.

Lemma rota_loop_tallied st ds :
  NoDup ds →
  Forall (tallied ∅) (roster st) →
  Forall (tallied (list_to_set ds))
         (roster (rota_loop choice closure_days st ds)).
Proof.
  intros Hnd Hst. induction ds as [|d ds IH] using rev_ind; [done|].
  apply NoDup_app in Hnd as (Hnd & Hd & _).
  rewrite rota_loop_snoc, list_to_set_snoc_L, (comm_L (∪)).
  apply process_date_tallied; [|by apply IH].
  rewrite elem_of_list_to_set. intros Hin. apply (Hd d Hin). left.
Qed.

(** With pairwise distinct dates the invariant of the data model holds
    after every date. *)
Lemma counted_distinct_dates dates staff k :
  NoDup dates → Forall is_reset staff →
  Forall counted (roster (before choice dates staff closure_days k)).
Proof.
  intros Hnd Hreset. unfold before, run_rota.
  eapply Forall_impl; [apply rota_loop_tallied|by intros s [_ ?]].
  - apply (sublist_NoDup _ dates); [done|apply sublist_take].
  - cbn [start roster]. eapply Forall_impl; [done|].
    intros s [Ha Hc]. split; [by rewrite Ha|]. unfold counted.
    by rewrite Ha, Hc, size_empty.
Qed.

End tally.

Lemma NoDup_month_days y m : NoDup (month_days y m).
Proof.
  unfold month_days. apply NoDup_fmap_2, NoDup_seqZ.
  by intros a b [= ->].
Qed.

(** C8 (the invariant of the per-run fields). For every year and month,
    with the roster reset at the start of the run, the number of assigned
    dates of every staff member is the shift count at every point of the
    run over the working dates of the month, that is, when the loop
    reaches each position [k] of the sequence and when it ends, whatever
    the tie-break. *)
Theorem assigned_dates_counted (choice : tie_break) (y m : Z)
    (staff : list Staff) (closure_days : gset date) :
  1 ≤ y ≤ 9999 →
  1 ≤ m ≤ 12 →
  Forall is_reset staff →
  ∃ ds, generate_dates y m = Some ds ∧
        ∀ k, Forall (λ s, Z.of_nat (size (assigned_dates s)) = shift_count s)
                    (roster (before choice ds staff closure_days k)).
Proof.
  intros Hy Hm Hreset. eexists. split; [by apply generate_dates_eq|].
  intros k.
  apply counted_distinct_dates; [|done].
  apply NoDup_filter, NoDup_month_days.
Qed.

Lemma assigned_dates_counted_witness :
  ∃ ds, generate_dates 2026 11 = Some ds ∧
        ∀ k, Forall (λ s, Z.of_nat (size (assigned_dates s)) = shift_count s)
                    (roster (before (random_choice (λ n, n)) ds staff_list
                               {[tuesday]} k)).
Proof.
  apply (assigned_dates_counted (random_choice (λ n, n)) 2026 11 staff_list
           {[tuesday]});
    [lia | lia | repeat constructor].
Defined.

(** With a date that occurs twice the fallback pool books the same date
    again: the count grows and the set of assigned dates does not. *)
Lemma repeated_date_not_counted :
  let staff := [mkStaff "Jane" [0; 1; 2] ∅ ∅ 0] in
  let after := roster_after (random_choice (λ n, n)) [monday; monday] staff ∅ in
  (λ s, (size (assigned_dates s), shift_count s)) <$> after = [(1%nat, 2)].
Proof. by vm_compute. Qed.

(** ** Determinism of the first-candidate policy *)

Lemma process_date_picks_first (c1 c2 : tie_break) closure_days st d :
  picks_first c1 → picks_first c2 →
  process_date c1 closure_days st d = process_date c2 closure_days st d.
Proof.
  intros H1 H2. unfold process_date.
  pose proof (branch_of_spec closure_days st d) as Hs.
  destruct (branch_of closure_days st d) as [|pool|]; try done.
  destruct Hs as (_ & Hne & _).
  assert (selected c1 st pool = selected c2 st pool) as ->; [|done].
  unfold selected. pose proof (candidates_nonempty (roster st) pool Hne).
  destruct (candidates (roster st) pool); [done|]. by rewrite H1, H2.
Qed.

(** C9 (determinism modulo randomness). Two runs on the same dates, roster
    and closure set, each with a tie-break that always takes the first
    candidate in listed order, give the same rows (and leave the same
    roster); the rows are those of [first_choice]. *)
Theorem first_choice_deterministic (c1 c2 : tie_break) (dates : list date)
    (staff : list Staff) (closure_days : gset date) :
  picks_first c1 →
  picks_first c2 →
  generate_rota c1 dates staff closure_days
    = generate_rota c2 dates staff closure_days ∧
  roster_after c1 dates staff closure_days
    = roster_after c2 dates staff closure_days ∧
  generate_rota c1 dates staff closure_days
    = generate_rota first_choice dates staff closure_days.
Proof.
  intros H1 H2.
  assert (∀ c, picks_first c →
            run_rota c dates staff closure_days
            = run_rota first_choice dates staff closure_days) as Hrun.
  { intros c Hc. unfold run_rota.
    induction dates as [|d ds IH] using rev_ind; [done|].
    rewrite !rota_loop_snoc, IH.
    by apply process_date_picks_first, first_choice_first. }
  unfold generate_rota, roster_after. by rewrite (Hrun c1), (Hrun c2).
Qed.

Lemma first_choice_deterministic_witness :
  generate_rota first_choice week staff_list {[tuesday]}
    = generate_rota (λ _ cs, default 0%nat (head cs)) week staff_list {[tuesday]} ∧
  roster_after first_choice week staff_list {[tuesday]}
    = roster_after (λ _ cs, default 0%nat (head cs)) week staff_list {[tuesday]} ∧
  generate_rota first_choice week staff_list {[tuesday]}
    = generate_rota first_choice week staff_list {[tuesday]}.
Proof.
  apply (first_choice_deterministic first_choice (λ _ cs, default 0%nat (head cs))
           week staff_list {[tuesday]}).
  - intros k c cs. reflexivity.
  - intros k c cs. reflexivity.
Defined.

(** The random tie-break is not deterministic: two generators can give
    different rotas from the same input. *)
Lemma random_choice_not_deterministic :
  generate_rota (random_choice (λ _, 0%nat)) [monday] staff_list ∅
  ≠ generate_rota (random_choice (λ _, 1%nat)) [monday] staff_list ∅.
Proof. by vm_compute. Qed.

(** * Further properties of the code *)

(** ** The calendar helpers outside their domain *)

Lemma monthrange_any_year y m :
  1 ≤ m ≤ 12 → ∃ day1 n, monthrange y m = Some (day1, n) ∧ 28 ≤ n ≤ 31.
Proof.
  intros Hm. unfold monthrange, cal_weekday.
  destruct (Z.leb_spec 1 m), (Z.leb_spec m 12); try lia. cbn [andb].
  set (y' := if (MINYEAR <=? y) && (y <=? MAXYEAR) then y else 2000 + y mod 400).
  assert (1 ≤ y' ≤ 9999) as Hy'.
  { subst y'. unfold MINYEAR, MAXYEAR.
    destruct (Z.leb_spec 1 y), (Z.leb_spec y 9999); cbn [andb]; zdm. }
  pose proof (days_in_month_le y' m Hm).
  rewrite (make_date_valid y' m Hy' Hm 1) by lia.
  cbn [fmap option_fmap option_map mbind option_bind].
  do 2 eexists. split; [done|].
  pose proof (days_in_month_le y m Hm) as Hd. unfold days_in_month in Hd.
  destruct (Z.eqb_spec m 2) as [->|]; cbn [andb] in *; [|lia].
  destruct (is_leap y); change (tbl DAYS_IN_MONTH 2) with 28; lia.
Qed.

Lemma make_date_bad_year y m d :
  ¬ 1 ≤ y ≤ 9999 → make_date y m d = None.
Proof.
  intros Hy. unfold make_date.
  destruct (valid_date _) eqn:Hv; [|done].
  apply valid_date_spec in Hv. cbn [year] in Hv. lia.
Qed.

Lemma calendar_outside_domain y m :
  ¬ (1 ≤ y ≤ 9999 ∧ 1 ≤ m ≤ 12) →
  generate_dates y m = None ∧ generate_all_dates y m = None.
Proof.
  intros Hbad. unfold generate_dates, generate_all_dates.
  destruct (decide (1 ≤ m ≤ 12)) as [Hm|Hm].
  - assert (¬ 1 ≤ y ≤ 9999) as Hy by tauto.
    destruct (monthrange_any_year y m Hm) as (day1 & n & -> & Hn).
    cbn [mbind option_bind]. rewrite (make_date_bad_year y m 1 Hy).
    split; [done|]. rewrite seqZ_cons by lia. cbn.
    by rewrite (make_date_bad_year y m 1 Hy).
  - unfold monthrange.
    destruct (Z.leb_spec 1 m), (Z.leb_spec m 12); try lia; done.
Qed.

(** X1 (when the calendar helpers raise). [generate_dates] and
    [generate_all_dates] raise exactly when the year is outside 1..9999 or
    the month outside 1..12, and for the same inputs. *)
Theorem calendar_helpers_raise (y m : Z) :
  (generate_dates y m = None ↔ ¬ (1 ≤ y ≤ 9999 ∧ 1 ≤ m ≤ 12)) ∧
  (generate_all_dates y m = None ↔ ¬ (1 ≤ y ≤ 9999 ∧ 1 ≤ m ≤ 12)).
Proof.
  destruct (decide (1 ≤ y ≤ 9999 ∧ 1 ≤ m ≤ 12)) as [[Hy Hm]|Hbad].
  - rewrite (generate_dates_eq y m Hy Hm), (generate_all_dates_eq y m Hy Hm).
    split; (split; [done|tauto]).
  - destruct (calendar_outside_domain y m Hbad) as [-> ->]. by split.
Qed.

(** X2 (the two calendar helpers agree). For every year and month, valid
    or not, the dates of [generate_dates], computed by adding days to the
    first of the month, are the dates of [generate_all_dates], built
    from day numbers, with Saturdays and Sundays removed. *)
Theorem generate_dates_weekdays_of_all (y m : Z) :
  generate_dates y m
  = filter (λ d, weekday d < 5) <$> generate_all_dates y m.
Proof.
  destruct (decide (1 ≤ y ≤ 9999 ∧ 1 ≤ m ≤ 12)) as [[Hy Hm]|Hbad].
  - by rewrite (generate_dates_eq y m Hy Hm), (generate_all_dates_eq y m Hy Hm).
  - by destruct (calendar_outside_domain y m Hbad) as [-> ->].
Qed.

(** ** The days of a month *)

Lemma length_month_days y m :
  1 ≤ m ≤ 12 → Z.of_nat (length (month_days y m)) = days_in_month y m.
Proof.
  intros Hm. pose proof (days_in_month_le y m Hm).
  unfold month_days. rewrite length_fmap, length_seqZ. lia.
Qed.

Lemma lookup_month_days y m (i : nat) :
  Z.of_nat i < days_in_month y m →
  month_days y m !! i = Some (mkDate y m (1 + Z.of_nat i)).
Proof.
  intros Hi. unfold month_days.
  by rewrite list_lookup_fmap, lookup_seqZ_lt.
Qed.

(** X3 (every day of the month). For a year in 1..9999 and a month in
    1..12, [generate_all_dates] returns the days of the month by day
    number: as many dates as the month has days (28 to 31), the date at
    position [i] being day [i + 1] of that month and year, each a calendar
    date. *)
Theorem generate_all_dates_days (y m : Z) :
  1 ≤ y ≤ 9999 →
  1 ≤ m ≤ 12 →
  ∃ l, generate_all_dates y m = Some l ∧
       Z.of_nat (length l) = days_in_month y m ∧
       28 ≤ days_in_month y m ≤ 31 ∧
       Forall (λ d, valid_date d = true) l ∧
       ∀ i : nat, Z.of_nat i < days_in_month y m →
                  l !! i = Some (mkDate y m (1 + Z.of_nat i)).
Proof.
  intros Hy Hm. exists (month_days y m).
  split; [by apply generate_all_dates_eq|].
  split; [by apply length_month_days|].
  split; [by apply days_in_month_le|].
  split; [|apply lookup_month_days].
  apply Forall_forall. intros d Hd.
  by apply elem_of_month_days in Hd as [? _].
Qed.

Lemma generate_all_dates_days_witness :
  ∃ l, generate_all_dates 2024 2 = Some l ∧
       Z.of_nat (length l) = days_in_month 2024 2 ∧
       28 ≤ days_in_month 2024 2 ≤ 31 ∧
       Forall (λ d, valid_date d = true) l ∧
       ∀ i : nat, Z.of_nat i < days_in_month 2024 2 →
                  l !! i = Some (mkDate 2024 2 (1 + Z.of_nat i)).
Proof. apply (generate_all_dates_days 2024 2); lia. Defined.

(** ** How many working days a month has *)

Lemma filter_fmap {A B} (f : A → B) (P : B → Prop) `{!∀ x, Decision (P x)}
    (l : list A) :
  filter P (f <$> l) = f <$> filter (P ∘ f) l.
Proof.
  induction l as [|x l IH]; [done|]. cbn [fmap list_fmap].
  rewrite !filter_cons. cbn [compose]. fold (fmap f l).
  case_decide; cbn [fmap list_fmap]; by rewrite IH.
Qed.

(** The weekday advances by one with the day of the month. *)
Lemma weekday_day_of_month y m k :
  weekday (mkDate y m k) = (weekday (mkDate y m 1) + (k - 1)) mod 7.
Proof.
  unfold weekday, toordinal, ymd2ord. cbn [year month day]. zdm.
Qed.

Lemma weekday_range d : 0 ≤ weekday d < 7.
Proof. unfold weekday. zdm. Qed.

Lemma weekdays_among_bounds w n :
  0 ≤ w < 7 → 28 ≤ n ≤ 31 → 20 ≤ weekdays_among w n ≤ 23.
Proof.
  intros Hw Hn.
  pose proof (forallb_seqZ
    (λ w, forallb (λ n, (20 <=? weekdays_among w n) && (weekdays_among w n <=? 23))
                  (seqZ 28 4)) 0 7 w eq_refl ltac:(lia)) as H.
  cbv beta in H.
  pose proof (forallb_seqZ _ 28 4 n H ltac:(lia)) as H'. cbv beta in H'.
  apply andb_prop in H' as [?%Z.leb_le ?%Z.leb_le]. lia.
Qed.

Lemma length_working_days y m :
  Z.of_nat (length (filter (λ d, weekday d < 5) (month_days y m)))
  = weekdays_among (weekday (mkDate y m 1)) (days_in_month y m).
Proof.
  unfold month_days, weekdays_among. rewrite filter_fmap, length_fmap.
  do 2 f_equal. apply list_filter_iff. intros k. cbn [compose].
  by rewrite weekday_day_of_month.
Qed.

(** X4 (working days in a month). For a year in 1..9999 and a month in
    1..12, [generate_dates] returns between 20 and 23 dates. *)
Theorem working_days_count (y m : Z) :
  1 ≤ y ≤ 9999 →
  1 ≤ m ≤ 12 →
  ∃ ds, generate_dates y m = Some ds ∧ (20 ≤ length ds ≤ 23)%nat.
Proof.
  intros Hy Hm. eexists. split; [by apply generate_dates_eq|].
  pose proof (length_working_days y m) as Hlen.
  pose proof (weekdays_among_bounds (weekday (mkDate y m 1)) (days_in_month y m)
                (weekday_range _) (days_in_month_le y m Hm)).
  lia.
Qed.

Lemma working_days_count_witness :
  ∃ ds, generate_dates 2026 2 = Some ds ∧ (20 ≤ length ds ≤ 23)%nat.
Proof. apply (working_days_count 2026 2); lia. Defined.

(** ** What a row holds besides the shift *)

Lemma holiday_names_person (l l' : list Staff) (d : date) :
  person <$> l = person <$> l' → holiday_names l d = holiday_names l' d.
Proof.
  intros Hp. unfold holiday_names.
  assert (∀ k : list Staff,
            name <$> filter (λ s, d ∈ holidays s) k
            = (λ p : string * list Z * gset date, p.1.1) <$>
                filter (λ p : string * list Z * gset date, d ∈ p.2)
                       (person <$> k)) as Hk.
  { intros k. rewrite filter_fmap, <- list_fmap_compose. done. }
  by rewrite !Hk, Hp.
Qed.

(** The row that a date adds, but for the shift. *)
Lemma process_date_row_fields (choice : tie_break) (closure_days : gset date)
    (st : Run) (d : date) :
  ∃ e, rota_data (process_date choice closure_days st d) = rota_data st ++ [e] ∧
       Date e = strftime_dmy d ∧ Day e = strftime_A d ∧
       Notes e = if decide (d ∈ closure_days)
                 then closure_note (holiday_names (roster st) d)
                 else holiday_note "" (holiday_names (roster st) d).
Proof.
  unfold process_date.
  pose proof (branch_of_spec closure_days st d) as Hs.
  destruct (branch_of closure_days st d) as [|pool|]; eexists;
    (split; [done|]); cbn [row Date Day Notes]; (split; [done|]);
    (split; [done|]).
  - by rewrite decide_True.
  - destruct Hs as [Hd _]. rewrite decide_False by done.
    by rewrite (holiday_names_person _ (roster st)) by apply alter_book_person.
  - destruct Hs as [Hd _]. by rewrite decide_False.
Qed.

(** X5 (date, day and notes of a row). Whatever the tie-break, the row of
    the date at position [k] carries that date formatted, the name of its
    weekday, and notes that depend only on the date, the closure set and the
    holidays of the roster: on a closure day "University Closure", followed
    by the names on holiday if any; otherwise empty when nobody is on
    holiday and else "On Holiday: " with the names (the separator branch
    of lines 107-108 is never taken). *)
Theorem row_date_day_notes (choice : tie_break) (dates : list date)
    (staff : list Staff) (closure_days : gset date) (k : nat) (d : date)
    (e : Entry) :
  dates !! k = Some d →
  generate_rota choice dates staff closure_days !! k = Some e →
  Date e = strftime_dmy d ∧
  Day e = DAY_NAMES !!! Z.to_nat (weekday d) ∧
  Notes e =
    match holiday_names staff d with
    | [] => if decide (d ∈ closure_days) then "University Closure" else ""
    | names =>
        (if decide (d ∈ closure_days)
         then "University Closure | On Holiday: " else "On Holiday: ")
        +:+ join ", " names
    end.
Proof.
  intros Hk He.
  pose proof (row_at choice dates staff closure_days k d e Hk He) as Hrow.
  destruct (process_date_row_fields choice closure_days
              (before choice dates staff closure_days k) d)
    as (e' & He' & HD & HA & HN).
  rewrite He' in Hrow. apply (inj (app _)) in Hrow as [= ->].
  split; [done|]. split; [done|]. rewrite HN.
  rewrite (holiday_names_person _ staff)
    by apply roster_reached_person.
  unfold closure_note, holiday_note.
  by destruct (holiday_names staff d), (decide (d ∈ closure_days)).
Qed.

Lemma row_date_day_notes_witness :
  ∃ e, generate_rota first_choice week staff_on_leave {[tuesday]} !! 1%nat
         = Some e ∧
       Date e = strftime_dmy tuesday ∧
       Day e = DAY_NAMES !!! Z.to_nat (weekday tuesday) ∧
       Notes e =
         match holiday_names staff_on_leave tuesday with
         | [] => if decide (tuesday ∈ ({[tuesday]} : gset date))
                 then "University Closure" else ""
         | names =>
             (if decide (tuesday ∈ ({[tuesday]} : gset date))
              then "University Closure | On Holiday: " else "On Holiday: ")
             +:+ join ", " names
         end.
Proof.
  eexists. split; [by vm_compute|].
  apply (row_date_day_notes first_choice week staff_on_leave {[tuesday]} 1
           tuesday).
  - reflexivity.
  - by vm_compute.
Defined.

Lemma strftime_A_weekday d :
  weekday d < 5 →
  strftime_A d ∈ ["Monday"; "Tuesday"; "Wednesday"; "Thursday"; "Friday"].
Proof.
  intros Hw. pose proof (weekday_range d). unfold strftime_A.
  pose proof (forallb_seqZ
    (λ w, bool_decide (DAY_NAMES !!! Z.to_nat w
                       ∈ ["Monday"; "Tuesday"; "Wednesday"; "Thursday"; "Friday"]))
    0 5 (weekday d) eq_refl ltac:(lia)) as H'.
  by apply bool_decide_eq_true in H'.
Qed.

(** X6 (no weekend in the rota of a month). In the rota of the working
    dates of a month, every row is written for a working date of the
    month: its [Date] is that date formatted, its [Day] is the weekday
    name of that date, and this name is one of Monday to Friday. *)
Theorem rota_days_are_weekdays (choice : tie_break) (y m : Z)
    (staff : list Staff) (closure_days : gset date) :
  1 ≤ y ≤ 9999 →
  1 ≤ m ≤ 12 →
  ∃ ds, generate_dates y m = Some ds ∧
        ∀ e, e ∈ generate_rota choice ds staff closure_days →
             Day e ∈ ["Monday"; "Tuesday"; "Wednesday"; "Thursday"; "Friday"] ∧
             ∃ d, d ∈ ds ∧ Date e = strftime_dmy d ∧ Day e = strftime_A d.
Proof.
  intros Hy Hm. eexists. split; [by apply generate_dates_eq|].
  intros e (k & He)%list_elem_of_lookup_1.
  destruct (row_date _ _ _ _ _ _ He) as (d & Hd & HD).
  pose proof (list_elem_of_lookup_2 _ _ _ Hd) as Hds.
  pose proof Hds as [Hw _]%list_elem_of_filter.
  pose proof (row_at choice _ staff closure_days k d e Hd He) as Hrow.
  destruct (process_date_row_fields choice closure_days
              (before choice (filter (λ d, weekday d < 5) (month_days y m))
                      staff closure_days k) d)
    as (e' & He' & _ & HA & _).
  rewrite He' in Hrow. apply (inj (app _)) in Hrow as [= ->].
  rewrite HA. split; [by apply strftime_A_weekday|]. by exists d.
Qed.

Lemma rota_days_are_weekdays_witness :
  ∃ ds, generate_dates 2026 11 = Some ds ∧
        ∀ e, e ∈ generate_rota first_choice ds staff_list {[tuesday]} →
             Day e ∈ ["Monday"; "Tuesday"; "Wednesday"; "Thursday"; "Friday"] ∧
             ∃ d, d ∈ ds ∧ Date e = strftime_dmy d ∧ Day e = strftime_A d.
Proof.
  apply (rota_days_are_weekdays first_choice 2026 11 staff_list {[tuesday]}); lia.
Defined.

(** ** Who is booked when *)

Section bookings.

Context (choice : tie_break) (Hchoice : picks_member choice).
Context (dates : list date) (staff : list Staff) (closure_days : gset date).

Local Notation "'reached' k" := (before choice dates staff closure_days k)
  (at level 10, k at level 9, only parsing).
Local Notation "'rota'" := (generate_rota choice dates staff closure_days)
  (only parsing).
Local Notation "'chosen_at' k" := (chosen choice dates staff closure_days k)
  (at level 10, k at level 9, only parsing).

Lemma length_roster_reached k : length (roster (reached k)) = length staff.
Proof. apply person_length, roster_reached_person. Qed.

(** What the date at position [k] does, by who is chosen. *)
Lemma step_chosen k d :
  dates !! k = Some d →
  match chosen_at k with
  | Some i =>
      (i < length staff)%nat ∧ on_duty d (staff !!! i) ∧ (d ∉ closure_days) ∧
      roster (reached (S k)) = alter (book d) i (roster (reached k)) ∧
      last_assigned_staff (reached (S k)) = Some (name (staff !!! i)) ∧
      ∀ e, rota !! k = Some e → Shift e = name (staff !!! i)
  | None =>
      roster (reached (S k)) = roster (reached k) ∧
      last_assigned_staff (reached (S k)) = None ∧
      ∀ e, rota !! k = Some e → Shift e = CLOSED ∨ Shift e = UNASSIGNED
  end.
Proof.
  intros Hk. unfold chosen. rewrite Hk. cbn [mbind option_bind].
  rewrite (run_rota_take_S _ _ _ _ k d Hk).
  pose proof (branch_of_spec closure_days (reached k) d) as Hs.
  pose proof (roster_reached_person choice dates staff closure_days k) as Hp.
  assert (∀ e, rota !! k = Some e →
               rota_data (process_date choice closure_days (reached k) d)
               = rota_data (reached k) ++ [e]) as Hrow
    by (intros e; by apply row_at).
  unfold process_date in *.
  destruct (branch_of closure_days (reached k) d) as [|pool|] eqn:Hb;
    cbn [roster last_assigned_staff rota_data] in *.
  - split; [done|]. split; [done|]. intros e He.
    specialize (Hrow e He). apply (inj (app _)) in Hrow as [= <-]. by left.
  - destruct (selected_on_duty _ _ _ _ _ Hchoice Hb) as [Hlt Hduty].
    set (sel := selected choice (reached k) pool) in *.
    pose proof (person_lookup_total _ _ sel Hp) as Hsel.
    rewrite (person_length _ _ Hp) in Hlt.
    assert (name (roster (reached k) !!! sel) = name (staff !!! sel)) as Hname
      by (by injection Hsel).
    split; [done|]. split; [exact (on_duty_person d _ _ Hsel Hduty)|].
    split; [by destruct Hs|]. split; [done|]. split; [by rewrite Hname|].
    intros e He. specialize (Hrow e He).
    by apply (inj (app _)) in Hrow as [= <-].
  - split; [done|]. split; [done|]. intros e He.
    specialize (Hrow e He). apply (inj (app _)) in Hrow as [= <-]. by right.
Qed.

Lemma reached_past_end k :
  dates !! k = None → reached (S k) = reached k.
Proof.
  intros Hk%lookup_ge_None. unfold before.
  by rewrite !take_ge by lia.
Qed.

Lemma assigned_dates_book d (l : list Staff) (i j : nat) :
  (i < length l)%nat →
  assigned_dates (alter (book d) i l !!! j)
  = if decide (i = j) then {[d]} ∪ assigned_dates (l !!! j)
    else assigned_dates (l !!! j).
Proof.
  intros Hi. rewrite list_lookup_total_alter.
  destruct (decide (i = j)) as [->|]; [|by rewrite decide_False by tauto].
  by rewrite decide_True.
Qed.

(** A date is among the assigned dates of a position exactly when that
    position was chosen for an occurrence of the date. *)
Lemma assigned_iff_chosen k i d :
  Forall is_reset staff →
  (i < length staff)%nat →
  d ∈ assigned_dates (roster (reached k) !!! i) ↔
  ∃ j, (j < k)%nat ∧ dates !! j = Some d ∧ chosen_at j = Some i.
Proof.
  intros Hreset Hi. induction k as [|k IH].
  - split; [|by intros (j & ? & _); lia].
    change (roster (reached 0)) with staff.
    rewrite Forall_forall in Hreset.
    destruct (Hreset (staff !!! i)) as [-> _];
      [by apply list_elem_of_lookup_total_2|].
    by intros ?%not_elem_of_empty.
  - destruct (dates !! k) as [d0|] eqn:Hk.
    + pose proof (step_chosen k d0 Hk) as Hstep.
      destruct (chosen_at k) as [i0|] eqn:Hc.
      * destruct Hstep as (Hi0 & _ & _ & -> & _).
        rewrite assigned_dates_book by (by rewrite length_roster_reached).
        destruct (decide (i0 = i)) as [->|Hne].
        -- rewrite elem_of_union, elem_of_singleton, IH. split.
           ++ intros [->|(j & ? & ? & ?)]; [exists k|exists j]; eauto with lia.
           ++ intros (j & Hj & Hd & Hcj).
              destruct (decide (j = k)) as [->|]; [left; congruence|].
              right. exists j. eauto with lia.
        -- rewrite IH. split.
           ++ intros (j & ? & ? & ?). exists j. eauto with lia.
           ++ intros (j & Hj & Hd & Hcj).
              destruct (decide (j = k)) as [->|]; [congruence|].
              exists j. eauto with lia.
      * destruct Hstep as (-> & _). rewrite IH. split.
        -- intros (j & ? & ? & ?). exists j. eauto with lia.
        -- intros (j & Hj & Hd & Hcj).
           destruct (decide (j = k)) as [->|]; [congruence|].
           exists j. eauto with lia.
    + rewrite (reached_past_end k Hk), IH. split.
      * intros (j & ? & ? & ?). exists j. eauto with lia.
      * intros (j & Hj & Hd & Hcj).
        destruct (decide (j = k)) as [->|]; [congruence|].
        exists j. eauto with lia.
Qed.

Lemma reached_all : reached (length dates) = run_rota choice dates staff closure_days.
Proof. unfold before. by rewrite firstn_all. Qed.

Lemma assigned_after_iff_chosen i d :
  Forall is_reset staff →
  (i < length staff)%nat →
  d ∈ assigned_dates (roster_after choice dates staff closure_days !!! i) ↔
  ∃ j, dates !! j = Some d ∧ chosen_at j = Some i.
Proof.
  intros Hreset Hi. unfold roster_after. rewrite <- reached_all.
  rewrite assigned_iff_chosen by done. split.
  - intros (j & _ & ? & ?). eauto.
  - intros (j & Hd & ?). exists j. split; [|done]. by eapply lookup_lt_Some.
Qed.

End bookings.

(** X7 (bookings respect availability). After a run from a reset roster,
    every date among the assigned dates of a staff member is a date of the
    sequence, is not a closure day, falls on one of the member's office
    days and is not one of the member's holidays. *)
Theorem booked_dates_on_duty (rng : nat → nat) (dates : list date)
    (staff : list Staff) (closure_days : gset date) (i : nat) (s : Staff)
    (d : date) :
  Forall is_reset staff →
  roster_after (random_choice rng) dates staff closure_days !! i = Some s →
  d ∈ assigned_dates s →
  d ∈ dates ∧ (d ∉ closure_days) ∧ weekday d ∈ office_days s ∧ d ∉ holidays s.
Proof.
  intros Hreset Hs Hd.
  set (choice := random_choice rng) in *.
  pose proof (run_rota_person choice dates staff closure_days) as Hp.
  pose proof (lookup_lt_Some _ _ _ Hs) as Hi.
  rewrite (person_length _ _ Hp) in Hi.
  pose proof (person_lookup_total _ _ i Hp) as Hpi.
  rewrite (list_lookup_total_correct _ _ _ Hs) in Hpi.
  rewrite <- (list_lookup_total_correct _ _ _ Hs) in Hd.
  apply (assigned_after_iff_chosen choice (random_choice_member rng)) in Hd
    as (j & Hj & Hc); [|done..].
  pose proof (step_chosen choice (random_choice_member rng) dates staff
                closure_days j d Hj) as Hstep.
  rewrite Hc in Hstep. destruct Hstep as (_ & Hduty & Hcl & _).
  split; [by eapply list_elem_of_lookup_2|]. split; [done|].
  symmetry in Hpi. by apply (on_duty_person d _ _ Hpi).
Qed.

Lemma booked_dates_on_duty_witness :
  monday ∈ week ∧ (monday ∉ ({[tuesday]} : gset date)) ∧
  weekday monday ∈ office_days (mkStaff "Jane" [0; 1; 2] ∅ {[monday]} 1) ∧
  monday ∉ holidays (mkStaff "Jane" [0; 1; 2] ∅ {[monday]} 1).
Proof.
  apply (booked_dates_on_duty (λ n, n) week staff_list {[tuesday]} 1
           (mkStaff "Jane" [0; 1; 2] ∅ {[monday]} 1) monday).
  - repeat constructor.
  - by vm_compute.
  - by vm_compute.
Defined.

(** X8 (one person per date). When the dates of the sequence are pairwise
    distinct and the roster starts reset, a date that is among the assigned
    dates of one position of the roster after the run is not among those
    of any other position. *)
Theorem one_person_per_date (rng : nat → nat) (dates : list date)
    (staff : list Staff) (closure_days : gset date) (i j : nat) (d : date) :
  NoDup dates →
  Forall is_reset staff →
  (i < length staff)%nat → (j < length staff)%nat → i ≠ j →
  d ∈ assigned_dates
        (roster_after (random_choice rng) dates staff closure_days !!! i) →
  d ∉ assigned_dates
        (roster_after (random_choice rng) dates staff closure_days !!! j).
Proof.
  intros Hnd Hreset Hi Hj Hij Hdi Hdj.
  apply (assigned_after_iff_chosen _ (random_choice_member rng)) in Hdi
    as (k & Hk & Hci); [|done..].
  apply (assigned_after_iff_chosen _ (random_choice_member rng)) in Hdj
    as (k' & Hk' & Hcj); [|done..].
  assert (k = k') as <- by (by eapply NoDup_lookup).
  congruence.
Qed.

Lemma one_person_per_date_witness :
  monday ∉ assigned_dates
             (roster_after (random_choice (λ n, n)) week staff_list {[tuesday]}
                !!! 4%nat).
Proof.
  apply (one_person_per_date (λ n, n) week staff_list {[tuesday]} 1 4 monday).
  - apply (bool_decide_unpack _). vm_compute. exact I.
  - repeat constructor.
  - vm_compute. lia.
  - vm_compute. lia.
  - lia.
  - by vm_compute.
Defined.

(** X9 (assigned dates and rows). For a roster with pairwise distinct names,
    none of them "CLOSED" or "UNASSIGNED", reset at the start: after the
    run the assigned dates of a staff member are exactly the dates of the
    rows that carry the member's name. *)
Theorem assigned_dates_are_rows (rng : nat → nat) (dates : list date)
    (staff : list Staff) (closure_days : gset date) (i : nat) (d : date) :
  NoDup (name <$> staff) →
  Forall (λ s, name s ≠ CLOSED ∧ name s ≠ UNASSIGNED) staff →
  Forall is_reset staff →
  (i < length staff)%nat →
  d ∈ assigned_dates
        (roster_after (random_choice rng) dates staff closure_days !!! i) ↔
  ∃ k e, dates !! k = Some d ∧
         generate_rota (random_choice rng) dates staff closure_days !! k
           = Some e ∧
         Shift e = name (staff !!! i).
Proof.
  intros Hnd Hsent Hreset Hi.
  set (choice := random_choice rng).
  rewrite (assigned_after_iff_chosen choice (random_choice_member rng))
    by done.
  split.
  - intros (k & Hk & Hc).
    destruct (generate_rota_lookup choice dates staff closure_days k d Hk)
      as (e & He & _).
    exists k, e. split; [done|]. split; [done|].
    pose proof (step_chosen choice (random_choice_member rng) dates staff
                  closure_days k d Hk) as Hstep.
    rewrite Hc in Hstep. destruct Hstep as (_ & _ & _ & _ & _ & Hrow). auto.
  - intros (k & e & Hk & He & Hshift). exists k. split; [done|].
    pose proof (step_chosen choice (random_choice_member rng) dates staff
                  closure_days k d Hk) as Hstep.
    destruct (chosen choice dates staff closure_days k) as [i0|].
    + destruct Hstep as (Hi0 & _ & _ & _ & _ & Hrow).
      f_equal. apply (name_position_inj staff); [done..|].
      by rewrite <- (Hrow e He).
    + destruct Hstep as (_ & _ & Hrow).
      rewrite Forall_forall in Hsent.
      destruct (Hsent (staff !!! i)) as [Hc Hu];
        [by apply list_elem_of_lookup_total_2|].
      destruct (Hrow e He); congruence.
Qed.

Lemma assigned_dates_are_rows_witness :
  monday ∈ assigned_dates
             (roster_after (random_choice (λ n, n)) week staff_list {[tuesday]}
                !!! 1%nat) ↔
  ∃ k e, week !! k = Some monday ∧
         generate_rota (random_choice (λ n, n)) week staff_list {[tuesday]} !! k
           = Some e ∧
         Shift e = name (staff_list !!! 1%nat).
Proof.
  apply (assigned_dates_are_rows (λ n, n) week staff_list {[tuesday]} 1 monday).
  - apply (bool_decide_unpack _). vm_compute. exact I.
  - repeat constructor; discriminate.
  - repeat constructor.
  - vm_compute. lia.
Defined.

(** X10 (shifts fall on office days). For a roster with pairwise distinct
    names, none of them "CLOSED" or "UNASSIGNED", every row whose shift is
    the name of a staff member is for a date whose weekday is among that
    member's office days. *)
Theorem shift_on_office_day (rng : nat → nat) (dates : list date)
    (staff : list Staff) (closure_days : gset date) (k : nat) (d : date)
    (e : Entry) (s : Staff) :
  NoDup (name <$> staff) →
  Forall (λ s, name s ≠ CLOSED ∧ name s ≠ UNASSIGNED) staff →
  dates !! k = Some d →
  generate_rota (random_choice rng) dates staff closure_days !! k = Some e →
  s ∈ staff →
  Shift e = name s →
  weekday d ∈ office_days s ∧ (d ∉ closure_days).
Proof.
  intros Hnd Hsent Hk He Hs Hshift.
  pose proof (step_chosen _ (random_choice_member rng) dates staff
                closure_days k d Hk) as Hstep.
  rewrite Forall_forall in Hsent. destruct (Hsent s Hs) as [Hc Hu].
  apply list_elem_of_lookup_total_1 in Hs as (j & Hj & <-).
  destruct (chosen _ dates staff closure_days k) as [i0|].
  - destruct Hstep as (Hi0 & [Hoff _] & Hcl & _ & _ & Hrow).
    assert (i0 = j) as <-; [|done].
    apply (name_position_inj staff); [done..|].
    by rewrite <- (Hrow e He).
  - destruct Hstep as (_ & _ & Hrow). destruct (Hrow e He); congruence.
Qed.

Lemma shift_on_office_day_witness :
  weekday monday ∈ office_days (mkStaff "Jane" [0; 1; 2] ∅ ∅ 0) ∧
  (monday ∉ ({[tuesday]} : gset date)).
Proof.
  apply (shift_on_office_day (λ n, n) week staff_list {[tuesday]} 0 monday
           (mkEntry "02/11/2026" "Monday" "Jane" "")
           (mkStaff "Jane" [0; 1; 2] ∅ ∅ 0)).
  - apply (bool_decide_unpack _). vm_compute. exact I.
  - repeat constructor; discriminate.
  - reflexivity.
  - by vm_compute.
  - right. left.
  - reflexivity.
Defined.

(** X11 (the name carried to the next day). After the date at position [k]
    the loop remembers the shift of that date's row when a staff member
    got it, and a member of that name is on duty that date; when it
    remembers nothing, the row is [CLOSED] or [UNASSIGNED]; and for a
    roster with no member named "CLOSED" or "UNASSIGNED", it remembers
    nothing exactly when the row is [CLOSED] or [UNASSIGNED]. *)
Theorem last_assigned_is_row_shift (rng : nat → nat) (dates : list date)
    (staff : list Staff) (closure_days : gset date) (k : nat) (d : date)
    (e : Entry) :
  dates !! k = Some d →
  generate_rota (random_choice rng) dates staff closure_days !! k = Some e →
  match last_assigned_staff
          (before (random_choice rng) dates staff closure_days (S k)) with
  | Some n => Shift e = n ∧ ∃ s, s ∈ staff ∧ name s = n ∧ on_duty d s
  | None => Shift e = CLOSED ∨ Shift e = UNASSIGNED
  end ∧
  (Forall (λ s, name s ≠ CLOSED ∧ name s ≠ UNASSIGNED) staff →
   (last_assigned_staff
      (before (random_choice rng) dates staff closure_days (S k)) = None
    ↔ Shift e = CLOSED ∨ Shift e = UNASSIGNED)).
Proof.
  intros Hk He.
  pose proof (step_chosen _ (random_choice_member rng) dates staff
                closure_days k d Hk) as Hstep.
  destruct (chosen _ dates staff closure_days k) as [i0|].
  - destruct Hstep as (Hi0 & Hduty & _ & _ & -> & Hrow).
    assert (staff !!! i0 ∈ staff) as Hin
      by (by apply list_elem_of_lookup_total_2).
    split; [split; [auto|by exists (staff !!! i0)]|].
    intros Hsent. rewrite Forall_forall in Hsent.
    destruct (Hsent _ Hin) as [Hc Hu].
    split; [done|]. rewrite (Hrow e He). by intros [?|?].
  - destruct Hstep as (_ & -> & Hrow). split; [auto|]. intros _. split; auto.
Qed.

Lemma last_assigned_is_row_shift_witness :
  match last_assigned_staff
          (before (random_choice (λ n, n)) week staff_list {[tuesday]} 1) with
  | Some n => Shift (mkEntry "02/11/2026" "Monday" "Jane" "") = n ∧
              ∃ s, s ∈ staff_list ∧ name s = n ∧ on_duty monday s
  | None => Shift (mkEntry "02/11/2026" "Monday" "Jane" "") = CLOSED ∨
            Shift (mkEntry "02/11/2026" "Monday" "Jane" "") = UNASSIGNED
  end ∧
  (Forall (λ s, name s ≠ CLOSED ∧ name s ≠ UNASSIGNED) staff_list →
   (last_assigned_staff
      (before (random_choice (λ n, n)) week staff_list {[tuesday]} 1) = None
    ↔ Shift (mkEntry "02/11/2026" "Monday" "Jane" "") = CLOSED ∨
      Shift (mkEntry "02/11/2026" "Monday" "Jane" "") = UNASSIGNED)).
Proof.
  apply (last_assigned_is_row_shift (λ n, n) week staff_list {[tuesday]} 0
           monday).
  - reflexivity.
  - by vm_compute.
Defined.

(** ** The fallback pool *)

Lemma tallied_reached (choice : tie_break) (dates : list date)
    (staff : list Staff) (closure_days : gset date) (k : nat) :
  NoDup dates → Forall is_reset staff →
  Forall (tallied (list_to_set (take k dates)))
         (roster (before choice dates staff closure_days k)).
Proof.
  intros Hnd Hreset. unfold before, run_rota. apply rota_loop_tallied.
  - apply (sublist_NoDup _ dates); [done|apply sublist_take].
  - cbn [start roster]. eapply Forall_impl; [done|].
    intros s [Ha Hc]. split; [by rewrite Ha|]. unfold counted.
    by rewrite Ha, Hc, size_empty.
Qed.



(** ** How many shifts a run can give *)

Lemma total_shifts_book_le d (l : list Staff) (i : nat) :
  total_shifts (alter (book d) i l) ≤ total_shifts l + 1.
Proof.
  unfold total_shifts. revert i.
  induction l as [|s l IH]; intros [|i]; cbn in *; try lia.
  specialize (IH i). lia.
Qed.

Lemma Forall_alter_book (P : Staff → Prop) d (l : list Staff) (i : nat) :
  (∀ s, P s → P (book d s)) → Forall P l → Forall P (alter (book d) i l).
Proof.
  intros HP Hl. rewrite Forall_lookup in Hl |- *.
  intros j s. rewrite list_lookup_alter. case_decide; [|by apply Hl].
  subst j. destruct (l !! i) as [s0|] eqn:Hs0; [|done].
  intros [= <-]. eauto.
Qed.

Lemma shift_count_le_total (l : list Staff) (s : Staff) :
  Forall (λ s, 0 ≤ shift_count s) l → s ∈ l → shift_count s ≤ total_shifts l.
Proof.
  unfold total_shifts. induction 1 as [|x l Hx Hl IH]; [by intros ?%elem_of_nil|].
  assert (0 ≤ foldr Z.add 0 (shift_count <$> l)) as Hnn.
  { clear IH. induction Hl; cbn; lia. }
  intros [->|Hin]%elem_of_cons; cbn; [lia|]. specialize (IH Hin). lia.
Qed.

Lemma rota_loop_total_le (choice : tie_break) (closure_days : gset date)
    (st : Run) (ds : list date) :
  Forall (λ s, 0 ≤ shift_count s) (roster st) →
  total_shifts (roster (rota_loop choice closure_days st ds))
  ≤ total_shifts (roster st)
    + Z.of_nat (length (filter (λ d, d ∉ closure_days) ds)) ∧
  Forall (λ s, 0 ≤ shift_count s)
         (roster (rota_loop choice closure_days st ds)).
Proof.
  intros Hst. induction ds as [|d ds [IH1 IH2]] using rev_ind.
  - split; [cbn; lia|done].
  - rewrite rota_loop_snoc, filter_app, length_app, filter_cons, filter_nil.
    unfold process_date.
    pose proof (branch_of_spec closure_days
                  (rota_loop choice closure_days st ds) d) as Hs.
    destruct (branch_of _ _ d) as [|pool|]; cbn [roster].
    + split; [|done]. case_decide; cbn [length]; lia.
    + destruct Hs as (Hd & _). rewrite decide_True by done. split.
      * pose proof (total_shifts_book_le d
          (roster (rota_loop choice closure_days st ds))
          (selected choice (rota_loop choice closure_days st ds) pool)).
        cbn [length]. lia.
      * apply Forall_alter_book; [|done]. intros s ?. cbn [book shift_count]. lia.
    + split; [|done]. case_decide; cbn [length]; lia.
Qed.

(** X13 (no more shifts than open days). After a run from a reset roster,
    whatever the tie-break, the shift counts are not negative and their sum
    is at most the number of dates of the sequence that are not closure
    days; so is the count of every staff member. *)
Theorem shift_counts_bounded (choice : tie_break) (dates : list date)
    (staff : list Staff) (closure_days : gset date) :
  Forall is_reset staff →
  total_shifts (roster_after choice dates staff closure_days)
  ≤ Z.of_nat (length (filter (λ d, d ∉ closure_days) dates)) ∧
  Forall (λ s, 0 ≤ shift_count s
               ≤ Z.of_nat (length (filter (λ d, d ∉ closure_days) dates)))
         (roster_after choice dates staff closure_days).
Proof.
  intros Hreset.
  destruct (rota_loop_total_le choice closure_days (start staff) dates)
    as [Htot Hnn].
  { cbn [start roster]. eapply Forall_impl; [done|]. intros s [_ ->]. lia. }
  cbn [start roster] in Htot. rewrite (total_shifts_reset staff Hreset) in Htot.
  fold (run_rota choice dates staff closure_days) in Htot, Hnn.
  fold (roster_after choice dates staff closure_days) in Htot, Hnn.
  split; [lia|]. apply Forall_forall. intros s Hs.
  pose proof (shift_count_le_total _ s Hnn Hs).
  rewrite Forall_forall in Hnn. specialize (Hnn s Hs). cbv beta in Hnn. lia.
Qed.

Lemma shift_counts_bounded_witness :
  total_shifts (roster_after first_choice week staff_list {[tuesday]})
  ≤ Z.of_nat (length (filter (λ d, d ∉ ({[tuesday]} : gset date)) week)) ∧
  Forall (λ s, 0 ≤ shift_count s
               ≤ Z.of_nat (length (filter (λ d, d ∉ ({[tuesday]} : gset date))
                                          week)))
         (roster_after first_choice week staff_list {[tuesday]}).
Proof.
  apply (shift_counts_bounded first_choice week staff_list {[tuesday]}).
  repeat constructor.
Defined.

(** ** The validator on any data frame *)

Lemma validate_row_nil (staff : list Staff) (row : Entry) :
  validate_row staff row = [] ↔
  ∃ d, strptime_dmy (Date row) = Some d ∧
       ∀ s, s ∈ staff → Shift row = name s → d ∉ holidays s.
Proof.
  unfold validate_row. destruct (strptime_dmy (Date row)) as [d|].
  - split.
    + intros Hnil%fmap_nil_inv. exists d. split; [done|]. intros s Hs Hn Hh.
      by apply (filter_nil_not_elem_of _ _ s Hnil).
    + intros (d' & [= <-] & Hall).
      replace (filter _ staff) with (@nil Staff); [done|].
      symmetry. apply elem_of_nil_inv.
      intros s [[Hn Hh] Hs]%list_elem_of_filter. by apply (Hall s).
  - split; [done|]. by intros (d & ? & _).
Qed.

(** X14 (what an empty list of warnings means). For any rows and any
    roster, [validate_shifts] returns no warning exactly when the [Date]
    of every row parses and no row has, as its shift, the name of a staff
    member whose holidays contain the row's date. *)
Theorem validator_clean_iff (df : list Entry) (staff : list Staff) :
  validate_shifts df staff = [] ↔
  ∀ row, row ∈ df →
    ∃ d, strptime_dmy (Date row) = Some d ∧
         ∀ s, s ∈ staff → Shift row = name s → d ∉ holidays s.
Proof.
  rewrite validate_shifts_nil. split.
  - intros H row Hrow. by apply validate_row_nil, H.
  - intros H row Hrow. by apply validate_row_nil, H.
Qed.

Lemma validate_row_person (staff staff' : list Staff) (row : Entry) :
  person <$> staff = person <$> staff' →
  validate_row staff row = validate_row staff' row.
Proof.
  intros Hp. unfold validate_row.
  destruct (strptime_dmy (Date row)) as [d|]; [|done].
  assert (∀ k : list Staff,
            (λ s, AssignedOnHoliday (name s) (Date row)) <$>
              filter (λ s, Shift row = name s ∧ d ∈ holidays s) k
            = (λ p : string * list Z * gset date,
                 AssignedOnHoliday p.1.1 (Date row)) <$>
                filter (λ p : string * list Z * gset date,
                          Shift row = p.1.1 ∧ d ∈ p.2)
                       (person <$> k)) as Hk.
  { intros k. rewrite filter_fmap, <- list_fmap_compose. done. }
  by rewrite !Hk, Hp.
Qed.

(** X16 (the validator ignores the per-run fields). [validate_shifts] reads
    only the names and the holidays of the roster: on the roster as the
    run leaves it, it returns what it returns on the roster given to the
    run, for any rows. *)
Theorem validator_ignores_run_state (choice : tie_break) (dates : list date)
    (staff : list Staff) (closure_days : gset date) (df : list Entry) :
  validate_shifts df (roster_after choice dates staff closure_days)
  = validate_shifts df staff.
Proof.
  pose proof (run_rota_person choice dates staff closure_days) as Hp.
  unfold validate_shifts. induction df as [|row df IH]; [done|].
  rewrite !bind_cons, IH. f_equal. by apply validate_row_person.
Qed.

(** ** The validator on the rota, before and after the year 1000 *)

(** X15 (rows of an early year are all reported). When the dates handed to
    the engine are calendar dates before the year 1000, the validator, run
    on the rota with any roster, reports every row and nothing else: one
    "Invalid date format" warning per date, in order, carrying the text
    written for that date. *)
Theorem early_rows_all_reported (choice : tie_break) (dates : list date)
    (staff : list Staff) (closure_days : gset date) (staff' : list Staff) :
  Forall (λ d, valid_date d = true ∧ year d < 1000) dates →
  validate_shifts (generate_rota choice dates staff closure_days) staff'
  = InvalidDateFormat ∘ strftime_dmy <$> dates.
Proof.
  intros Hv.
  assert (∀ df : list Entry,
            Forall (λ e, strptime_dmy (Date e) = None) df →
            validate_shifts df staff' = InvalidDateFormat ∘ Date <$> df) as Hall.
  { induction 1 as [|e df He _ IH]; [done|].
    unfold validate_shifts in *. rewrite bind_cons, IH, fmap_cons.
    unfold validate_row at 1. by rewrite He. }
  rewrite Hall.
  - by rewrite list_fmap_compose, generate_rota_dates, <- list_fmap_compose.
  - apply Forall_forall. intros e (k & He)%list_elem_of_lookup_1.
    destruct (row_date _ _ _ _ _ _ He) as (d & Hd & ->).
    rewrite Forall_forall in Hv.
    destruct (Hv d) as [Hvd Hyd]; [by eapply list_elem_of_lookup_2|].
    by apply strptime_strftime_early.
Qed.

Lemma early_rows_all_reported_witness :
  validate_shifts
    (generate_rota first_choice [mkDate 999 1 1; mkDate 999 1 2] staff_list ∅)
    staff_list
  = InvalidDateFormat ∘ strftime_dmy <$> [mkDate 999 1 1; mkDate 999 1 2].
Proof.
  apply (early_rows_all_reported first_choice [mkDate 999 1 1; mkDate 999 1 2]
           staff_list ∅ staff_list).
  repeat constructor; by vm_compute.
Defined.

(** X17 (the rota passes its validation). For a roster whose names are
    pairwise distinct and none of which is "CLOSED" or "UNASSIGNED", and
    calendar dates of the year 1000 or later, the validator run on the
    rota with the roster as the run leaves it returns the empty list. *)
Theorem rota_passes_validation (rng : nat → nat) (dates : list date)
    (staff : list Staff) (closure_days : gset date) :
  NoDup (name <$> staff) →
  Forall (λ s, name s ≠ CLOSED ∧ name s ≠ UNASSIGNED) staff →
  Forall (λ d, valid_date d = true ∧ 1000 ≤ year d) dates →
  validate_shifts (generate_rota (random_choice rng) dates staff closure_days)
                  (roster_after (random_choice rng) dates staff closure_days)
  = [].
Proof.
  intros Hnd Hsent Hv.
  by apply validator_silent; [apply random_choice_member|..].
Qed.

Lemma rota_passes_validation_witness :
  validate_shifts
    (generate_rota (random_choice (λ n, n)) [monday; tuesday] staff_on_leave ∅)
    (roster_after (random_choice (λ n, n)) [monday; tuesday] staff_on_leave ∅)
  = [].
Proof.
  apply (rota_passes_validation (λ n, n) [monday; tuesday] staff_on_leave ∅).
  - apply (bool_decide_unpack _). vm_compute. exact I.
  - repeat constructor; discriminate.
  - repeat constructor; by vm_compute.
Defined.

(** ** The program around the engine *)

Lemma all_date_strings_Some y m opts :
  all_date_strings y m = Some opts →
  1 ≤ y ≤ 9999 ∧ 1 ≤ m ≤ 12 ∧ opts = strftime_dmy <$> month_days y m.
Proof.
  unfold all_date_strings. intros Hopts.
  destruct (decide (1 ≤ y ≤ 9999 ∧ 1 ≤ m ≤ 12)) as [[Hy Hm]|Hbad].
  - rewrite (generate_all_dates_eq y m Hy Hm) in Hopts. by simplify_eq/=.
  - destruct (calendar_outside_domain y m Hbad) as [_ Hn].
    by rewrite Hn in Hopts.
Qed.

(** Texts taken from the options of a month of the year 1000 or later
    parse, to the dates of the month that they are the texts of. *)
Lemma parse_selection_options y m selected :
  1000 ≤ y ≤ 9999 → 1 ≤ m ≤ 12 →
  selected ⊆ strftime_dmy <$> month_days y m →
  ∃ S, parse_selection selected = Some S ∧
       ∀ d, d ∈ S ↔ d ∈ month_days y m ∧ strftime_dmy d ∈ selected.
Proof.
  intros Hy Hm Hsub.
  assert (∀ d, d ∈ month_days y m →
            strptime_dmy (strftime_dmy d) = Some d) as Hback.
  { intros d (Hv & Hyd & _)%elem_of_month_days; [|lia|done].
    apply strptime_strftime; [done|lia]. }
  assert (∀ t, t ∈ selected →
            ∃ d, d ∈ month_days y m ∧ t = strftime_dmy d ∧
                 strptime_dmy t = Some d) as Hparse.
  { intros t (d & -> & Hd)%Hsub%list_elem_of_fmap. exists d.
    split; [done|]. split; [done|]. by apply Hback. }
  destruct (mapM strptime_dmy selected) as [l|] eqn:Hl.
  - exists (list_to_set l). unfold parse_selection. rewrite Hl.
    split; [done|]. intros d. rewrite elem_of_list_to_set.
    apply mapM_Some_1 in Hl. split.
    + intros (i & Hi)%list_elem_of_lookup_1.
      destruct (Forall2_lookup_r _ _ _ _ _ Hl Hi) as (t & Ht & Htd).
      destruct (Hparse t) as (d' & Hd' & -> & Hp);
        [by eapply list_elem_of_lookup_2|].
      assert (d' = d) as -> by congruence.
      split; [done|]. by eapply list_elem_of_lookup_2.
    + intros [Hd (i & Hi)%list_elem_of_lookup_1].
      destruct (Forall2_lookup_l _ _ _ _ _ Hl Hi) as (d' & Hd' & Htd).
      rewrite (Hback d Hd) in Htd.
      simplify_eq. by eapply list_elem_of_lookup_2.
  - apply mapM_None_1, Exists_exists in Hl as (t & Ht & Hnone).
    destruct (Hparse t Ht) as (d & _ & _ & ?). congruence.
Qed.

(** X18 (the selections parse from the year 1000 on). For a target month
    of the year 1000 or later, the options offered are pairwise distinct
    texts, one per day of the month, and any selection taken from them
    parses (lines 164 and 169 do not raise) to the set of the dates of the
    month whose text was selected. *)
Theorem selection_parses (y m : Z) (opts selected : list string) :
  1000 ≤ y →
  all_date_strings y m = Some opts →
  selected ⊆ opts →
  NoDup opts ∧
  Z.of_nat (length opts) = days_in_month y m ∧
  ∃ all S, generate_all_dates y m = Some all ∧
           parse_selection selected = Some S ∧
           ∀ d, d ∈ S ↔ d ∈ all ∧ strftime_dmy d ∈ selected.
Proof.
  intros Hy1000 (Hy & Hm & ->)%all_date_strings_Some Hsub.
  split; [|split].
  - apply NoDup_fmap_2_strong; [|apply NoDup_month_days].
    intros d1 d2 Hd1 Hd2. apply strftime_inj.
    + by apply elem_of_month_days in Hd1 as [? _].
    + by apply elem_of_month_days in Hd2 as [? _].
  - rewrite length_fmap. by apply length_month_days.
  - destruct (parse_selection_options y m selected) as (S & ? & ?);
      [lia|done..|].
    exists (month_days y m), S. split; [by apply generate_all_dates_eq|done].
Qed.

Lemma selection_parses_witness :
  ∃ opts, all_date_strings 2026 11 = Some opts ∧
  NoDup opts ∧
  Z.of_nat (length opts) = days_in_month 2026 11 ∧
  ∃ all S, generate_all_dates 2026 11 = Some all ∧
           parse_selection ["03/11/2026"; "02/11/2026"] = Some S ∧
           ∀ d, d ∈ S ↔
                d ∈ all ∧ strftime_dmy d ∈ ["03/11/2026"; "02/11/2026"].
Proof.
  eexists. split; [by vm_compute|].
  apply (selection_parses 2026 11 _ ["03/11/2026"; "02/11/2026"]).
  - lia.
  - by vm_compute.
  - intros t Ht. apply (bool_decide_unpack _).
    apply list_elem_of_In in Ht. destruct Ht as [<-|[<-|[]]]; by vm_compute.
Defined.

Lemma with_holidays_Some (selection : string → list string)
    (staff : list Staff) :
  (∀ n, is_Some (parse_selection (selection n))) →
  ∃ staff', with_holidays selection staff = Some staff' ∧
            Forall2 (λ s s', ∃ h, parse_selection (selection (name s)) = Some h ∧
                                  s' = set_holidays s h) staff staff'.
Proof.
  intros Hsel. unfold with_holidays.
  destruct (mapM _ staff) as [staff'|] eqn:Hm.
  - exists staff'. split; [done|]. apply mapM_Some_1 in Hm.
    eapply Forall2_impl; [done|]. intros s s' Hs. cbv beta in Hs.
    destruct (parse_selection (selection (name s))) as [h|]; [|done].
    exists h. by simplify_eq/=.
  - apply mapM_None_1, Exists_exists in Hm as (s & _ & Hnone).
    destruct (Hsel (name s)) as [h Hh]. by rewrite Hh in Hnone.
Qed.

Lemma summary_totals (l : list Staff) :
  fst <$> summary l = name <$> l ∧
  foldr Z.add 0 (snd <$> summary l) = total_shifts l.
Proof.
  unfold summary, total_shifts. rewrite <- !list_fmap_compose. done.
Qed.

(** X19 (the program does not warn from the year 1000 on). For the staff
    list of the program, any target month of the year 1000 or later, any
    holidays selected per staff member and any closure days selected, all
    taken from the options offered: pressing the button
    gives an output; its list of warnings is empty; the rota has one row
    per working date of the month, in order; the shift summary lists the
    five staff members in the order of the staff list, and its counts add
    up to the number of rows whose shift is a name. *)
Theorem app_never_warns (rng : nat → nat) (y m : Z)
    (holiday_selection : string → list string)
    (closure_selected opts : list string) :
  1000 ≤ y →
  all_date_strings y m = Some opts →
  (∀ n, holiday_selection n ⊆ opts) →
  closure_selected ⊆ opts →
  ∃ out ds, streamlit_app rng y m holiday_selection closure_selected = Some out ∧
            generate_dates y m = Some ds ∧
            warnings out = [] ∧
            Date <$> rota_df out = strftime_dmy <$> ds ∧
            fst <$> shift_summary out
              = ["John"; "Jane"; "Cheryl"; "Claire"; "Sarmad"] ∧
            foldr Z.add 0 (snd <$> shift_summary out)
              = staffed_rows (rota_df out).
Proof.
  intros Hy1000 Hopts Hhol Hclo.
  unfold streamlit_app. rewrite Hopts. cbn [mbind option_bind].
  apply all_date_strings_Some in Hopts as (Hy & Hm & ->).
  assert (1000 ≤ y ≤ 9999) as Hy' by lia.
  destruct (with_holidays_Some holiday_selection staff_list)
    as (staff & -> & Hstaff).
  { intros n.
    destruct (parse_selection_options y m _ Hy' Hm (Hhol n)) as (S & -> & _).
    by eexists. }
  destruct (parse_selection_options y m _ Hy' Hm Hclo) as (closure & -> & _).
  cbn [mbind option_bind]. unfold generate_button.
  rewrite (generate_dates_eq y m Hy Hm). cbn [mbind option_bind].
  set (ds := filter (λ d, weekday d < 5) (month_days y m)).
  set (choice := random_choice rng).
  assert (name <$> (reset <$> staff) = name <$> staff_list) as Hnames.
  { rewrite <- list_fmap_compose. symmetry. apply list_eq_Forall2.
    apply Forall2_fmap. eapply Forall2_impl; [done|].
    by intros s s' (h & _ & ->). }
  assert (Forall (λ s, name s ≠ CLOSED ∧ name s ≠ UNASSIGNED) (reset <$> staff))
    as Hsent.
  { apply (Forall_fmap name (λ n, n ≠ CLOSED ∧ n ≠ UNASSIGNED)).
    rewrite Hnames. repeat constructor; discriminate. }
  assert (Forall (λ d, valid_date d = true ∧ 1000 ≤ year d) ds) as Hvalid.
  { apply Forall_forall. intros d [_ Hd]%list_elem_of_filter.
    apply elem_of_month_days in Hd as (? & ? & _); [|done..].
    split; [done|lia]. }
  eexists _, ds. split; [done|]. split; [done|].
  cbn [warnings rota_df shift_summary].
  pose proof (run_rota_person choice ds (reset <$> staff) closure) as Hp.
  unfold roster_after in Hp.
  split; [|split; [|split]].
  - apply (validator_silent choice (random_choice_member rng)); [|done..].
    rewrite Hnames. apply (bool_decide_unpack _). by vm_compute.
  - apply generate_rota_dates.
  - destruct (summary_totals (roster (run_rota choice ds (reset <$> staff) closure)))
      as [-> _].
    by rewrite (names_person _ _ Hp), Hnames.
  - destruct (summary_totals (roster (run_rota choice ds (reset <$> staff) closure)))
      as [_ ->].
    pose proof (rota_loop_load choice (random_choice_member rng)
                  (reset <$> staff) closure Hsent (start (reset <$> staff)) ds
                  eq_refl) as Hload.
    cbn [start roster rota_data] in Hload.
    rewrite (total_shifts_reset _ (proj1 (reset_is_reset staff))) in Hload.
    change (staffed_rows []) with 0 in Hload. fold choice in Hload.
    unfold run_rota. lia.
Qed.

Lemma app_never_warns_witness :
  ∃ out ds,
    streamlit_app (λ n, n) 2026 11
        (λ n, if decide (n = "John") then ["03/11/2026"] else [])
        ["04/11/2026"] = Some out ∧
    generate_dates 2026 11 = Some ds ∧
    warnings out = [] ∧
    Date <$> rota_df out = strftime_dmy <$> ds ∧
    fst <$> shift_summary out = ["John"; "Jane"; "Cheryl"; "Claire"; "Sarmad"] ∧
    foldr Z.add 0 (snd <$> shift_summary out) = staffed_rows (rota_df out).
Proof.
  apply (app_never_warns (λ n, n) 2026 11
           (λ n, if decide (n = "John") then ["03/11/2026"] else [])
           ["04/11/2026"] (strftime_dmy <$> month_days 2026 11)).
  - lia.
  - by vm_compute.
  - intros n t Ht. case_decide; [|by apply elem_of_nil in Ht].
    apply list_elem_of_singleton in Ht as ->.
    apply (bool_decide_unpack _). by vm_compute.
  - intros t Ht. apply list_elem_of_singleton in Ht as ->.
    apply (bool_decide_unpack _). by vm_compute.
Defined.

(** ** Balance when everybody is on duty *)

Lemma shift_count_book d (l : list Staff) (i j : nat) :
  (i < length l)%nat →
  shift_count (alter (book d) i l !!! j)
  = if decide (i = j) then shift_count (l !!! j) + 1 else shift_count (l !!! j).
Proof.
  intros Hi. rewrite list_lookup_total_alter.
  destruct (decide (i = j)) as [->|]; [|by rewrite decide_False by tauto].
  by rewrite decide_True.
Qed.

Section balance.

Context (choice : tie_break) (Hchoice : picks_member choice).
Context (dates : list date) (staff : list Staff) (closure_days : gset date).
Context (Hnames : NoDup (name <$> staff)).
Context (Hdates : NoDup dates) (Hreset : Forall is_reset staff).
Context (Hduty : ∀ s d, s ∈ staff → d ∈ dates → d ∉ closure_days → on_duty d s).

Local Notation "'reached' k" := (before choice dates staff closure_days k)
  (at level 10, k at level 9, only parsing).

(** Everybody is in the pool of every date that is not a closure day. *)
Lemma everybody_in_pool k d j :
  dates !! k = Some d → d ∉ closure_days → (j < length staff)%nat →
  j ∈ relevant_pool (roster (reached k)) d.
Proof.
  intros Hk Hcl Hj.
  pose proof (roster_reached_person choice dates staff closure_days k) as Hp.
  assert (j ∈ back_to_back (roster (reached k)) d) as Hin.
  { apply elem_of_back_to_back. split; [by rewrite (person_length _ _ Hp)|].
    pose proof (person_lookup_total _ _ j Hp) as Hpj. symmetry in Hpj.
    apply (on_duty_person d _ _ Hpj), Hduty; [|by eapply list_elem_of_lookup_2|done].
    by apply list_elem_of_lookup_total_2. }
  pose proof (tallied_reached choice dates staff closure_days k Hdates Hreset)
    as Ht.
  assert (d ∉ take k dates) as Hnew.
  { intros (i & Hi & Hlt)%elem_of_take.
    pose proof (NoDup_lookup _ _ _ _ Hdates Hi Hk). lia. }
  assert (j ∈ available (roster (reached k)) d) as Hav.
  { apply elem_of_back_to_back in Hin as [Hlt Hon].
    apply elem_of_available. split; [done|]. split; [done|].
    rewrite Forall_lookup in Ht.
    destruct (Ht j _ (list_lookup_lookup_total_lt _ _ Hlt)) as [Hsub _].
    intros Hd. apply Hnew. apply Hsub in Hd.
    by apply elem_of_list_to_set in Hd. }
  unfold relevant_pool.
  destruct (available (roster (reached k)) d) eqn:E;
    [by apply elem_of_nil in Hav|done].
Qed.

(** The one chosen has the least count of the whole roster. *)
Lemma chosen_has_least k d i j :
  balanced (reached k) →
  dates !! k = Some d →
  chosen choice dates staff closure_days k = Some i →
  (j < length staff)%nat →
  shift_count (roster (reached k) !!! i) ≤ shift_count (roster (reached k) !!! j).
Proof.
  intros [_ Hmax] Hk Hc Hj.
  pose proof (length_roster_reached choice dates staff closure_days k) as Hlen.
  unfold chosen in Hc. rewrite Hk in Hc. cbn [mbind option_bind] in Hc.
  pose proof (branch_of_spec closure_days (reached k) d) as Hs.
  destruct (branch_of closure_days (reached k) d) as [|pool|] eqn:Hb;
    [done| |done].
  injection Hc as <-. destruct Hs as (Hcl & Hne & Hpool).
  destruct (selected_spec choice (reached k) pool Hchoice Hne) as [Hsel Hmin].
  pose proof (everybody_in_pool k d j Hk Hcl Hj) as Hin.
  destruct (avoid_last_cases (roster (reached k))
              (last_assigned_staff (reached k))
              (relevant_pool (roster (reached k)) d))
    as [[Hkeep _]|(n & Hn & Hf & _)].
  - apply Hmin. by rewrite Hpool, Hkeep.
  - destruct (decide (name (roster (reached k) !!! j) = n)) as [Hjn|Hjn].
    + apply Hmax; [by rewrite Hn, Hjn|lia|].
      by destruct (selected_on_duty _ _ _ _ _ Hchoice Hb) as [? _].
    + apply Hmin. rewrite Hpool, Hf. by apply list_elem_of_filter.
Qed.

Lemma balanced_reached k : balanced (reached k).
Proof.
  induction k as [|k IH].
  - change (reached 0) with (start staff). unfold balanced.
    cbn [start roster last_assigned_staff]. split; [|done].
    intros i j Hi Hj. rewrite Forall_forall in Hreset.
    destruct (Hreset (staff !!! i)) as [_ ->];
      [by apply list_elem_of_lookup_total_2|].
    destruct (Hreset (staff !!! j)) as [_ ->];
      [by apply list_elem_of_lookup_total_2|]. lia.
  - destruct (dates !! k) as [d|] eqn:Hk;
      [|by rewrite (reached_past_end choice dates staff closure_days k Hk)].
    pose proof (step_chosen choice Hchoice dates staff closure_days k d Hk)
      as Hstep.
    pose proof (length_roster_reached choice dates staff closure_days k) as Hlen.
    pose proof (length_roster_reached choice dates staff closure_days (S k))
      as Hlen'.
    pose proof (roster_reached_person choice dates staff closure_days k) as Hp.
    destruct (chosen choice dates staff closure_days k) as [i0|] eqn:Hc.
    + destruct Hstep as (Hi0 & _ & _ & Hros & Hlast & _).
      pose proof (λ j, chosen_has_least k d i0 j IH Hk Hc) as Hleast.
      destruct IH as [Hdiff _].
      unfold balanced. rewrite Hlen', Hlast, Hros. rewrite Hlen in Hdiff.
      split.
      * intros i j Hi Hj. rewrite !shift_count_book by lia.
        specialize (Hdiff i j Hi Hj). specialize (Hleast j Hj).
        repeat case_decide; subst; lia.
      * intros i j Hn Hi Hj. rewrite !shift_count_book by lia.
        assert (i0 = i) as <-.
        { apply (name_position_inj staff); [done..|].
          injection Hn as Hn. rewrite Hn.
          pose proof (person_lookup_total _ _ i (alter_book_person d i0
                        (roster (reached k)))) as [= Hn1 _ _].
          pose proof (person_lookup_total _ _ i Hp) as [= Hn2 _ _].
          congruence. }
        specialize (Hdiff j i0 Hj Hi0).
        repeat case_decide; subst; first [lia | done].
    + destruct Hstep as (Hros & Hlast & _).
      destruct IH as [Hdiff _]. unfold balanced.
      rewrite Hlast, Hros. split; [done|]. by intros.
Qed.

End balance.

(** X20 (balance when everybody is on duty). For a roster with pairwise
    distinct names, reset at the start, and pairwise distinct dates such
    that every staff member is on duty on every date that is not a
    closure day: after the run no two shift counts differ by more than
    one. *)
Theorem balanced_when_all_on_duty (rng : nat → nat) (dates : list date)
    (staff : list Staff) (closure_days : gset date) (s t : Staff) :
  NoDup (name <$> staff) →
  NoDup dates →
  Forall is_reset staff →
  (∀ s d, s ∈ staff → d ∈ dates → d ∉ closure_days → on_duty d s) →
  s ∈ roster_after (random_choice rng) dates staff closure_days →
  t ∈ roster_after (random_choice rng) dates staff closure_days →
  shift_count s ≤ shift_count t + 1.
Proof.
  intros Hnames Hdates Hreset Hduty
    (i & Hi & <-)%list_elem_of_lookup_total_1
    (j & Hj & <-)%list_elem_of_lookup_total_1.
  destruct (balanced_reached (random_choice rng) (random_choice_member rng)
              dates staff closure_days Hnames Hdates Hreset Hduty
              (length dates)) as [Hdiff _].
  rewrite reached_all in Hdiff. by apply Hdiff.
Qed.

Lemma balanced_when_all_on_duty_witness :
  shift_count (roster_after (random_choice (λ _, 1%nat)) week staff_every_day
                 {[tuesday]} !!! 0%nat)
  ≤ shift_count (roster_after (random_choice (λ _, 1%nat)) week staff_every_day
                   {[tuesday]} !!! 1%nat) + 1.
Proof.
  apply (balanced_when_all_on_duty (λ _, 1%nat) week staff_every_day
           {[tuesday]}).
  - apply (bool_decide_unpack _). vm_compute. exact I.
  - apply (bool_decide_unpack _). vm_compute. exact I.
  - repeat constructor.
  - intros s d Hs Hd _. apply (bool_decide_unpack _).
    apply list_elem_of_In in Hs, Hd.
    destruct Hs as [<-|[<-|[<-|[]]]];
      destruct Hd as [<-|[<-|[<-|[<-|[]]]]]; by vm_compute.
  - apply list_elem_of_lookup_total_2. vm_compute. lia.
  - apply list_elem_of_lookup_total_2. vm_compute. lia.
Defined.

(** ** The same name on two consecutive rows *)

Section back_to_back_rows.

Context (choice : tie_break) (Hchoice : picks_member choice).
Context (dates : list date) (staff : list Staff) (closure_days : gset date).
Context (Hdates : NoDup dates) (Hreset : Forall is_reset staff).

Local Notation "'reached' k" := (before choice dates staff closure_days k)
  (at level 10, k at level 9, only parsing).

(** With distinct dates, whoever is on duty is in the pool. *)
Lemma on_duty_in_pool k d j :
  dates !! k = Some d → (j < length staff)%nat → on_duty d (staff !!! j) →
  j ∈ relevant_pool (roster (reached k)) d.
Proof.
  intros Hk Hj Hon.
  pose proof (roster_reached_person choice dates staff closure_days k) as Hp.
  pose proof (tallied_reached choice dates staff closure_days k Hdates Hreset)
    as Ht.
  assert (d ∉ take k dates) as Hnew.
  { intros (i & Hi & Hlt)%elem_of_take.
    pose proof (NoDup_lookup _ _ _ _ Hdates Hi Hk). lia. }
  assert (j < length (roster (reached k)))%nat as Hlt
    by (by rewrite (person_length _ _ Hp)).
  assert (j ∈ available (roster (reached k)) d) as Hav.
  { apply elem_of_available. split; [done|]. split.
    - pose proof (person_lookup_total _ _ j Hp) as Hpj. symmetry in Hpj.
      by apply (on_duty_person d _ _ Hpj).
    - rewrite Forall_lookup in Ht.
      destruct (Ht j _ (list_lookup_lookup_total_lt _ _ Hlt)) as [Hsub _].
      intros Hd. apply Hnew. apply Hsub in Hd.
      by apply elem_of_list_to_set in Hd. }
  unfold relevant_pool.
  destruct (available (roster (reached k)) d) eqn:E;
    [by apply elem_of_nil in Hav|done].
Qed.

(** When the one chosen has the name of the previous day, everybody in the
    pool has it. *)
Lemma chosen_again k d i j :
  dates !! k = Some d →
  chosen choice dates staff closure_days k = Some i →
  last_assigned_staff (reached k) = Some (name (staff !!! i)) →
  j ∈ relevant_pool (roster (reached k)) d →
  name (staff !!! j) = name (staff !!! i).
Proof.
  intros Hk Hc Hlast Hj.
  pose proof (roster_reached_person choice dates staff closure_days k) as Hp.
  assert (∀ x, name (roster (reached k) !!! x) = name (staff !!! x)) as Hname
    by (intros x; by pose proof (person_lookup_total _ _ x Hp) as [= -> _ _]).
  unfold chosen in Hc. rewrite Hk in Hc. cbn [mbind option_bind] in Hc.
  pose proof (branch_of_spec closure_days (reached k) d) as Hs.
  destruct (branch_of closure_days (reached k) d) as [|pool|] eqn:Hb;
    [done| |done].
  injection Hc as <-. destruct Hs as (_ & Hne & Hpool).
  destruct (selected_spec choice (reached k) pool Hchoice Hne) as [Hsel _].
  set (sel := selected choice (reached k) pool) in *.
  destruct (avoid_last_cases (roster (reached k))
              (last_assigned_staff (reached k))
              (relevant_pool (roster (reached k)) d))
    as [[_ Hall]|(n & Hn & Hf & _)].
  - rewrite <- Hname. by apply (Hall _ j Hlast).
  - rewrite Hpool, Hf in Hsel.
    apply list_elem_of_filter in Hsel as [Hsn _].
    rewrite Hname in Hsn. congruence.
Qed.

End back_to_back_rows.

(** X21 (no avoidable back-to-back shifts). For a roster with pairwise
    distinct names, none of them "CLOSED" or "UNASSIGNED", reset at the
    start, and pairwise distinct dates: when the row of a date carries the
    name of a staff member and somebody else of the roster is on duty on
    the next date of the sequence, the row of that next date does not
    carry the same name. *)
Theorem no_avoidable_back_to_back (rng : nat → nat) (dates : list date)
    (staff : list Staff) (closure_days : gset date) (k : nat) (d' : date)
    (e e' : Entry) (s t : Staff) :
  NoDup (name <$> staff) →
  Forall (λ s, name s ≠ CLOSED ∧ name s ≠ UNASSIGNED) staff →
  NoDup dates →
  Forall is_reset staff →
  dates !! S k = Some d' →
  generate_rota (random_choice rng) dates staff closure_days !! k = Some e →
  generate_rota (random_choice rng) dates staff closure_days !! S k = Some e' →
  s ∈ staff → Shift e = name s →
  t ∈ staff → name t ≠ name s → on_duty d' t →
  Shift e' ≠ name s.
Proof.
  intros Hnames Hsent Hdates Hreset Hk' He He' Hs Hshift Ht Hts Hon Hshift'.
  set (choice := random_choice rng) in *.
  pose proof (random_choice_member rng) as Hchoice. fold choice in Hchoice.
  destruct (row_date _ _ _ _ _ _ He) as (d & Hk & _).
  rewrite Forall_forall in Hsent. destruct (Hsent s Hs) as [Hc Hu].
  apply list_elem_of_lookup_total_1 in Hs as (i & Hi & <-).
  apply list_elem_of_lookup_total_1 in Ht as (j & Hj & <-).
  pose proof (step_chosen choice Hchoice dates staff closure_days k d Hk)
    as Hstep.
  destruct (chosen choice dates staff closure_days k) as [i0|];
    [|destruct Hstep as (_ & _ & Hrow); destruct (Hrow e He); congruence].
  destruct Hstep as (Hi0 & _ & _ & _ & Hlast & Hrow).
  assert (i0 = i) as ->.
  { apply (name_position_inj staff); [done..|]. by rewrite <- (Hrow e He). }
  pose proof (step_chosen choice Hchoice dates staff closure_days (S k) d' Hk')
    as Hstep'.
  destruct (chosen choice dates staff closure_days (S k)) as [i1|] eqn:Hc1;
    [|destruct Hstep' as (_ & _ & Hrow'); destruct (Hrow' e' He'); congruence].
  destruct Hstep' as (Hi1 & _ & _ & _ & _ & Hrow').
  assert (i1 = i) as ->.
  { apply (name_position_inj staff); [done..|]. by rewrite <- (Hrow' e' He'). }
  apply Hts.
  apply (chosen_again choice Hchoice dates staff closure_days (S k) d');
    [done..|].
  by apply on_duty_in_pool.
Qed.

Lemma no_avoidable_back_to_back_witness :
  Shift (mkEntry "03/11/2026" "Tuesday" "Cheryl" "")
  ≠ name (mkStaff "Jane" [0; 1; 2] ∅ ∅ 0).
Proof.
  apply (no_avoidable_back_to_back (λ n, n) week staff_list ∅ 0 tuesday
           (mkEntry "02/11/2026" "Monday" "Jane" "")
           (mkEntry "03/11/2026" "Tuesday" "Cheryl" "")
           (mkStaff "Jane" [0; 1; 2] ∅ ∅ 0)
           (mkStaff "Sarmad" [0; 1; 3] ∅ ∅ 0)).
  - apply (bool_decide_unpack _). vm_compute. exact I.
  - repeat constructor; discriminate.
  - apply (bool_decide_unpack _). vm_compute. exact I.
  - repeat constructor.
  - reflexivity.
  - by vm_compute.
  - by vm_compute.
  - right. left.
  - reflexivity.
  - do 4 right. left.
  - discriminate.
  - apply (bool_decide_unpack _). vm_compute. exact I.
Defined.
